(** * The Svelte chat session of [packages/core/svelte/use-chat.ts]

    A shallow embedding of [useChat] and of the helpers it returns
    ([append], [reload], [stop], [setMessages], [handleSubmit]), together
    with [getStreamedResponse] and [triggerRequest].

    The session is asynchronous: [triggerRequest] suspends at
    [await processChatStream(...)] and is resumed when that promise
    settles, while the callbacks handed to [callChatApi] run in between.
    JavaScript runs each of these pieces to completion, so the session is
    a labelled transition system whose labels are the calls of the
    embedding application and the events of the transport. *)

From stdpp Require Import base strings list gmap pretty.

Local Open Scope string_scope.
Local Open Scope list_scope.

(** ** Data model *)

(** Values of the fields of the objects that travel in requests. A date is
    its epoch time; a structured value (a function call, a tool-call array,
    a tool definition) is carried as its JSON text. *)
Inductive JSValue :=
  | JUndefined
  | JString (s : string)
  | JDate (ms : Z)
  | JStruct (json : string).

Global Instance JSValue_eq_dec : EqDecision JSValue.
Proof. solve_decision. Defined.

(** A plain JavaScript object: its own properties. *)
Abbreviation Obj := (gmap string JSValue).


Inductive Role :=
  | RoleSystem | RoleUser | RoleAssistant | RoleFunction | RoleData | RoleTool.

Global Instance Role_eq_dec : EqDecision Role.
Proof. solve_decision. Defined.

Definition role_string (r : Role) : string :=
  match r with
  | RoleSystem => "system"
  | RoleUser => "user"
  | RoleAssistant => "assistant"
  | RoleFunction => "function"
  | RoleData => "data"
  | RoleTool => "tool"
  end.

(** [Message] of [../shared/types]: the fields this file reads or writes. *)
Record Message := mkMessage {
  msg_id : string;
  msg_createdAt : option Z;
  msg_role : Role;
  msg_content : string;
  msg_name : option string;
  msg_function_call : option JSValue;
  msg_tool_calls : option JSValue;
  msg_tool_call_id : option string;
}.

Global Instance Message_eq_dec : EqDecision Message.
Proof. solve_decision. Defined.

(** [CreateMessage]: a message whose [id] is optional. *)
Record CreateMessage := mkCreateMessage {
  cm_id : option string;
  cm_createdAt : option Z;
  cm_role : Role;
  cm_content : string;
  cm_name : option string;
  cm_function_call : option JSValue;
  cm_tool_calls : option JSValue;
  cm_tool_call_id : option string;
}.

(** [{ headers, body }] of [ChatRequestOptions.options]. *)
Record RequestOptions := mkRequestOptions {
  ro_headers : option (gmap string string);
  ro_body : option Obj;
}.

Record ChatRequestOptions := mkChatRequestOptions {
  cro_options : option RequestOptions;
  cro_functions : option JSValue;
  cro_function_call : option JSValue;
  cro_tools : option JSValue;
  cro_tool_choice : option JSValue;
}.

Record ChatRequest := mkChatRequest {
  cr_messages : list Message;
  cr_options : option RequestOptions;
  cr_functions : option JSValue;
  cr_function_call : option JSValue;
  cr_tools : option JSValue;
  cr_tool_choice : option JSValue;
}.

Inductive StreamMode := StreamData | StreamText.

(** A raised value whose properties can be read (an object or a
    primitive other than [null] and [undefined]): whether it is an
    [Error] instance, its [name] property if it has one, and its
    message. *)
Record Thrown := mkThrown {
  instanceofError : bool;
  thrown_name : option string;
  thrown_message : string;
}.

Global Instance Thrown_eq_dec : EqDecision Thrown.
Proof. solve_decision. Defined.

(** What a [throw] or a rejected promise carries: such a value, or [null]
    or [undefined], on which reading [name] raises a [TypeError]. *)
Inductive Raised :=
  | RaisedNullish
  | RaisedValue (v : Thrown).

Global Instance Raised_eq_dec : EqDecision Raised.
Proof. solve_decision. Defined.

(** The error raised by [(err as any).name] when [err] is [null] or
    [undefined]. *)
Definition TypeError_reading_name : Thrown :=
  mkThrown true (Some "TypeError") "Cannot read properties of null".

(** ** Objects on the wire *)

(** [...(v !== undefined && { k: v })] spread over [o]. *)
Definition spread_defined (k : string) (v : option JSValue) (o : Obj) : Obj :=
  match v with
  | Some x => <[k := x]> o
  | None => o
  end.

(** [{ ...a, ...b }]: the properties of [b] win. *)
Definition spread2 {V} (a b : option (gmap string V)) : gmap string V :=
  default ∅ b ∪ default ∅ a.

(** A message as the object it is: every field that is set is an own
    property. This is what is serialised when messages are sent as is. *)
Definition message_object (m : Message) : Obj :=
  spread_defined "tool_call_id" (JString <$> msg_tool_call_id m)
  (spread_defined "tool_calls" (msg_tool_calls m)
  (spread_defined "function_call" (msg_function_call m)
  (spread_defined "name" (JString <$> msg_name m)
  (spread_defined "createdAt" (JDate <$> msg_createdAt m)
  (<["content" := JString (msg_content m)]>
  (<["role" := JString (role_string (msg_role m))]>
  {["id" := JString (msg_id m)]})))))).

(** The arrow function of [getStreamedResponse] (lines 59-70): [role],
    [content] and [tool_call_id] are always written (the last possibly
    [undefined]); [name], [function_call] and [tool_calls] only when
    defined. *)
Definition project_message (m : Message) : Obj :=
  spread_defined "tool_calls" (msg_tool_calls m)
  (spread_defined "function_call" (msg_function_call m)
  (spread_defined "name" (JString <$> msg_name m)
  (<["tool_call_id" := from_option JString JUndefined (msg_tool_call_id m)]>
  (<["content" := JString (msg_content m)]>
  {["role" := JString (role_string (msg_role m))]})))).

(** [sendExtraMessageFields ? a : b] tests truthiness of an optional
    boolean. *)
Definition truthy (b : option bool) : bool := default false b.

Definition constructedMessagesPayload
    (sendExtraMessageFields : option bool) (msgs : list Message) : list Obj :=
  if truthy sendExtraMessageFields
  then message_object <$> msgs
  else project_message <$> msgs.

(** ** The session and its surroundings *)

(** The argument object of one [callChatApi] call. The callbacks it also
    carries ([onUpdate], [restoreMessagesOnFailure]) are the transport
    events below; [onResponse], [onFinish] and [generateId] are handed over
    untouched. *)
Record Request := mkRequest {
  req_api : string;
  req_messages : list Obj;
  req_body : Obj;
  req_streamMode : option StreamMode;
  req_credentials : option string;
  req_headers : gmap string string;
  req_abortController : option nat;
}.

(** What the callbacks built by one call of [getStreamedResponse] close
    over. *)
Record Call := mkCall {
  call_chatRequest : ChatRequest;
  call_existingData : option (list JSValue);
  call_previousMessages : list Message;
  call_abortControllerRef : option nat;
}.

(** The frame of one suspended [triggerRequest]: its parameter
    [chatRequest], which [updateChatRequest] reassigns, and the callbacks of
    its latest [getStreamedResponse] call, if it made one. *)
Record Exchange := mkExchange {
  ex_chatRequest : ChatRequest;
  ex_call : option Call;
}.

(** How the promise of [append] or [reload] settles: it resolves with
    [null] or with [undefined], or it is rejected. *)
Inductive Resolution :=
  | ResolvedNull
  | ResolvedUndefined
  | Rejected (reason : Raised).

Global Instance Resolution_eq_dec : EqDecision Resolution.
Proof. solve_decision. Defined.

(** The promise itself: already settled, or that of the suspended
    [triggerRequest] numbered [e]. *)
Inductive Promise :=
  | Resolved (v : Resolution)
  | Pending (e : nat).

(** The module-level variables ([store], [uniqueId]), the variables of one
    [useChat] closure ([messages], [streamData], [loading], [error],
    [input], [abortController]) and what the session does to its
    surroundings: the [AbortController] objects constructed so far (each is
    its number) and those aborted, the [callChatApi] calls made, the
    arguments [onError] was called with, the number of ids drawn from
    [generateId], the suspended [triggerRequest] frames and how their
    promises settled. *)
Record State := mkState {
  store : gmap string (list Message);
  uniqueId : nat;
  messages : list Message;
  streamData : option (list JSValue);
  loading : bool;
  error : option Thrown;
  input : string;
  abortController : option nat;
  controllers : nat;
  aborted : gset nat;
  requests : list Request;
  onErrorCalls : list Thrown;
  idCalls : nat;
  inflight : gmap nat Exchange;
  exchanges : nat;
  settled : gmap nat Resolution;
}.

Definition set_store (v : gmap string (list Message)) (st : State) : State :=
  mkState v (uniqueId st) (messages st) (streamData st) (loading st)
    (error st) (input st) (abortController st) (controllers st)
    (aborted st) (requests st) (onErrorCalls st) (idCalls st) (inflight st)
    (exchanges st) (settled st).

Definition set_messages (v : list Message) (st : State) : State :=
  mkState (store st) (uniqueId st) v (streamData st) (loading st)
    (error st) (input st) (abortController st) (controllers st)
    (aborted st) (requests st) (onErrorCalls st) (idCalls st) (inflight st)
    (exchanges st) (settled st).

Definition set_streamData (v : option (list JSValue)) (st : State) : State :=
  mkState (store st) (uniqueId st) (messages st) v (loading st) (error st)
    (input st) (abortController st) (controllers st) (aborted st)
    (requests st) (onErrorCalls st) (idCalls st) (inflight st)
    (exchanges st) (settled st).

Definition set_loading (v : bool) (st : State) : State :=
  mkState (store st) (uniqueId st) (messages st) (streamData st) v
    (error st) (input st) (abortController st) (controllers st)
    (aborted st) (requests st) (onErrorCalls st) (idCalls st) (inflight st)
    (exchanges st) (settled st).

Definition set_error (v : option Thrown) (st : State) : State :=
  mkState (store st) (uniqueId st) (messages st) (streamData st)
    (loading st) v (input st) (abortController st) (controllers st)
    (aborted st) (requests st) (onErrorCalls st) (idCalls st) (inflight st)
    (exchanges st) (settled st).

Definition set_input (v : string) (st : State) : State :=
  mkState (store st) (uniqueId st) (messages st) (streamData st)
    (loading st) (error st) v (abortController st) (controllers st)
    (aborted st) (requests st) (onErrorCalls st) (idCalls st) (inflight st)
    (exchanges st) (settled st).

Definition set_abortController (v : option nat) (st : State) : State :=
  mkState (store st) (uniqueId st) (messages st) (streamData st)
    (loading st) (error st) (input st) v (controllers st) (aborted st)
    (requests st) (onErrorCalls st) (idCalls st) (inflight st)
    (exchanges st) (settled st).

Definition set_controllers (v : nat) (st : State) : State :=
  mkState (store st) (uniqueId st) (messages st) (streamData st)
    (loading st) (error st) (input st) (abortController st) v (aborted st)
    (requests st) (onErrorCalls st) (idCalls st) (inflight st)
    (exchanges st) (settled st).

Definition set_aborted (v : gset nat) (st : State) : State :=
  mkState (store st) (uniqueId st) (messages st) (streamData st)
    (loading st) (error st) (input st) (abortController st)
    (controllers st) v (requests st) (onErrorCalls st) (idCalls st)
    (inflight st) (exchanges st) (settled st).

Definition set_requests (v : list Request) (st : State) : State :=
  mkState (store st) (uniqueId st) (messages st) (streamData st)
    (loading st) (error st) (input st) (abortController st)
    (controllers st) (aborted st) v (onErrorCalls st) (idCalls st)
    (inflight st) (exchanges st) (settled st).

Definition set_onErrorCalls (v : list Thrown) (st : State) : State :=
  mkState (store st) (uniqueId st) (messages st) (streamData st)
    (loading st) (error st) (input st) (abortController st)
    (controllers st) (aborted st) (requests st) v (idCalls st)
    (inflight st) (exchanges st) (settled st).

Definition set_idCalls (v : nat) (st : State) : State :=
  mkState (store st) (uniqueId st) (messages st) (streamData st)
    (loading st) (error st) (input st) (abortController st)
    (controllers st) (aborted st) (requests st) (onErrorCalls st) v
    (inflight st) (exchanges st) (settled st).

Definition set_inflight (v : gmap nat Exchange) (st : State) : State :=
  mkState (store st) (uniqueId st) (messages st) (streamData st)
    (loading st) (error st) (input st) (abortController st)
    (controllers st) (aborted st) (requests st) (onErrorCalls st)
    (idCalls st) v (exchanges st) (settled st).

Definition set_exchanges (v : nat) (st : State) : State :=
  mkState (store st) (uniqueId st) (messages st) (streamData st)
    (loading st) (error st) (input st) (abortController st)
    (controllers st) (aborted st) (requests st) (onErrorCalls st)
    (idCalls st) (inflight st) v (settled st).

Definition set_settled (v : gmap nat Resolution) (st : State) : State :=
  mkState (store st) (uniqueId st) (messages st) (streamData st)
    (loading st) (error st) (input st) (abortController st)
    (controllers st) (aborted st) (requests st) (onErrorCalls st)
    (idCalls st) (inflight st) (exchanges st) v.

(** The five observables the helpers expose. *)
Definition observables (st : State) :
    list Message * option (list JSValue) * bool * option Thrown * string :=
  (messages st, streamData st, loading st, error st, input st).

(** The immutable part of a [useChat] closure: the options after defaults.
    [onError] records whether the handler was supplied and [onError_raises]
    what the handler, called with an error, raises ([None] when it
    returns); [generateId] is given the number of ids drawn before, and
    [generateId_raises] is what that call raises ([None] when it returns
    the id). *)
Record Config := mkConfig {
  api : string;
  chatId : string;
  sendExtraMessageFields : option bool;
  streamMode : option StreamMode;
  onError : bool;
  onError_raises : Thrown → option Raised;
  credentials : option string;
  headers : option (gmap string string);
  body : option Obj;
  generateId : nat → string;
  generateId_raises : nat → option Raised;
}.

Record UseChatOptions := mkUseChatOptions {
  opt_api : option string;
  opt_id : option string;
  opt_initialMessages : option (list Message);
  opt_initialInput : option string;
  opt_sendExtraMessageFields : option bool;
  opt_streamMode : option StreamMode;
  opt_onError : bool;
  opt_onError_raises : Thrown → option Raised;
  opt_credentials : option string;
  opt_headers : option (gmap string string);
  opt_body : option Obj;
  opt_generateId : option (nat → string);
  opt_generateId_raises : nat → option Raised;
}.

(** [const key = `${api}|${chatId}`] *)
Definition key (cfg : Config) : string := api cfg +:+ "|" +:+ chatId cfg.

(** A string is falsy when it is absent or empty. *)
Definition nonempty_string (s : option string) : option string :=
  match s with
  | Some "" => None
  | other => other
  end.

(** [useChat]: the closure it creates over the module variables
    [store0] and [uniqueId0]. [generateIdFunc] is the default of
    [../shared/generate-id], which returns; a function given in the
    options may raise. The store is not consulted. *)
Definition useChat (generateIdFunc : nat → string) (o : UseChatOptions)
    (store0 : gmap string (list Message)) (uniqueId0 : nat) : Config * State :=
  let '(chatId, uniqueId1) :=
    match nonempty_string (opt_id o) with
    | Some i => (i, uniqueId0)
    | None => ("chat-" +:+ pretty uniqueId0, S uniqueId0)
    end in
  (mkConfig (default "/api/chat" (opt_api o)) chatId
     (opt_sendExtraMessageFields o) (opt_streamMode o) (opt_onError o)
     (opt_onError_raises o) (opt_credentials o) (opt_headers o) (opt_body o)
     (default generateIdFunc (opt_generateId o))
     (match opt_generateId o with
      | Some _ => opt_generateId_raises o
      | None => λ _, None
      end),
   mkState store0 uniqueId1
     (default [] (opt_initialMessages o)) None false None
     (default "" (opt_initialInput o)) None
     0 ∅ [] [] 0 ∅ 0 ∅).

(** How the promise of [processChatStream] settles: it returns, or it is
    rejected with the value raised below it, which may be [null] or
    [undefined]. *)
Inductive Completion :=
  | Returned
  | Threw (err : Thrown)
  | ThrewNullish.

(** [(err as any).name === 'AbortError'] *)
Definition is_AbortError (err : Thrown) : bool :=
  bool_decide (thrown_name err = Some "AbortError").

(** [messagesSnapshot.slice(0, -1)] *)
Definition slice_0_minus1 {A} (l : list A) : list A := take (length l - 1) l.

(** The cast [message as Message], once the id is known. *)
Definition as_Message (i : string) (m : CreateMessage) : Message :=
  mkMessage i (cm_createdAt m) (cm_role m) (cm_content m) (cm_name m)
    (cm_function_call m) (cm_tool_calls m) (cm_tool_call_id m).

Section Session.
Context (cfg : Config).

(** [mutate] (lines 142-145) *)
Definition mutate (data : list Message) (st : State) : State :=
  set_messages data (set_store (<[key cfg := data]> (store st)) st).

(** The [body] and [headers] arguments built at lines 76-97. *)
Definition request_body (chatRequest : ChatRequest) : Obj :=
  spread_defined "tool_choice" (cr_tool_choice chatRequest)
  (spread_defined "tools" (cr_tools chatRequest)
  (spread_defined "function_call" (cr_function_call chatRequest)
  (spread_defined "functions" (cr_functions chatRequest)
  (spread2 (body cfg) (cr_options chatRequest ≫= ro_body))))).

Definition request_headers (chatRequest : ChatRequest) : gmap string string :=
  spread2 (headers cfg) (cr_options chatRequest ≫= ro_headers).

(** [getStreamedResponse] (lines 35-110) up to the point where
    [callChatApi] has been called: the messages are set to those of the
    request, the payload is built and the call is made. The result is the
    closure of the callbacks handed to [callChatApi]. *)
Definition getStreamedResponse (chatRequest : ChatRequest)
    (existingData : option (list JSValue)) (previousMessages : list Message)
    (abortControllerRef : option nat) (st : State) : Call * State :=
  let st := mutate (cr_messages chatRequest) st in
  let constructed :=
    constructedMessagesPayload (sendExtraMessageFields cfg)
      (cr_messages chatRequest) in
  (mkCall chatRequest existingData previousMessages abortControllerRef,
   set_requests
     (requests st ++
      [mkRequest (api cfg) constructed (request_body chatRequest)
         (streamMode cfg) (credentials cfg) (request_headers chatRequest)
         abortControllerRef]) st).

(** [restoreMessagesOnFailure] (lines 99-101) *)
Definition restoreMessagesOnFailure (c : Call) (st : State) : State :=
  mutate (call_previousMessages c) st.

(** [onUpdate] (lines 103-106) *)
Definition onUpdate (c : Call) (merged : list Message)
    (data : option (list JSValue)) (st : State) : State :=
  let st := mutate (cr_messages (call_chatRequest c) ++ merged) st in
  set_streamData
    (Some (default [] (call_existingData c) ++ default [] data)) st.

(** [triggerRequest] (lines 155-205) up to its [await]: the error is
    cleared, loading is raised, a new controller replaces the held one,
    and the frame is suspended on [processChatStream]. *)
Definition triggerRequest (chatRequest : ChatRequest) (st : State)
    : Promise * State :=
  let st := set_error None st in
  let st := set_loading true st in
  let st :=
    set_abortController (Some (controllers st))
      (set_controllers (S (controllers st)) st) in
  let e := exchanges st in
  (Pending e,
   set_exchanges (S e)
     (set_inflight (<[e := mkExchange chatRequest None]> (inflight st)) st)).

(** The thunk given to [processChatStream] as [getStreamedResponse]
    (lines 162-179): its arguments are read when it is called. *)
Definition getStreamedResponse_thunk (e : nat) (st : State) : State :=
  match inflight st !! e with
  | None => st
  | Some ex =>
    let '(c, st) :=
      getStreamedResponse (ex_chatRequest ex) (streamData st) (messages st)
        (abortController st) st in
    set_inflight (<[e := mkExchange (ex_chatRequest ex) (Some c)]> (inflight st)) st
  end.

(** [updateChatRequest] (lines 182-184) *)
Definition updateChatRequest (e : nat) (chatRequestParam : ChatRequest)
    (st : State) : State :=
  match inflight st !! e with
  | None => st
  | Some ex =>
    set_inflight (<[e := mkExchange chatRequestParam (ex_call ex)]> (inflight st)) st
  end.

(** A callback of the latest [callChatApi] call of frame [e]. *)
Definition with_call (e : nat) (f : Call → State → State) (st : State)
    : State :=
  match inflight st !! e ≫= ex_call with
  | None => st
  | Some c => f c st
  end.

(** The [finally] clause and the settling of the promise. *)
Definition finally_resolve (e : nat) (r : Resolution) (st : State) : State :=
  let st := set_loading false st in
  set_settled (<[e := r]> (settled st)) st.

(** What the call [onError(err)] of line 198 raises, if the call is made
    and the handler raises. *)
Definition handler_raises (err : Thrown) : option Raised :=
  if onError cfg && instanceofError err then onError_raises cfg err else None.

(** The [catch] clause (lines 191-201). Reading [name] of [null] or
    [undefined] raises; so may the handler, whose call is recorded. What
    the clause raises leaves it at once - [error.set] is not reached - and
    rejects the promise once the [finally] clause has run. *)
Definition catch_clause (e : nat) (r : Raised) (st : State) : State :=
  match r with
  | RaisedNullish =>
    finally_resolve e (Rejected (RaisedValue TypeError_reading_name)) st
  | RaisedValue err =>
    if is_AbortError err then
      finally_resolve e ResolvedNull (set_abortController None st)
    else
      let st :=
        if onError cfg && instanceofError err
        then set_onErrorCalls (onErrorCalls st ++ [err]) st
        else st in
      match handler_raises err with
      | Some r' => finally_resolve e (Rejected r') st
      | None => finally_resolve e ResolvedUndefined (set_error (Some err) st)
      end
  end.

(** [triggerRequest] from its [await] on (lines 188-204). *)
Definition triggerRequest_settled (e : nat) (c : Completion) (st : State)
    : State :=
  match inflight st !! e with
  | None => st
  | Some _ =>
    let st := set_inflight (delete e (inflight st)) st in
    match c with
    | Returned => finally_resolve e ResolvedNull (set_abortController None st)
    | Threw err => catch_clause e (RaisedValue err) st
    | ThrewNullish => catch_clause e RaisedNullish st
    end
  end.

(** [if (!message.id) message.id = generateId()] (lines 217-219): the
    message with its id, or what the call of [generateId] raised. *)
Definition assign_id (message : CreateMessage) (st : State)
    : (Raised + Message) * State :=
  match nonempty_string (cm_id message) with
  | Some i => (inr (as_Message i message), st)
  | None =>
    let st' := set_idCalls (S (idCalls st)) st in
    match generateId_raises cfg (idCalls st) with
    | Some r => (inl r, st')
    | None => (inr (as_Message (generateId cfg (idCalls st)) message), st')
    end
  end.

(** [append] (lines 207-230). The id is assigned outside the [try] of
    [triggerRequest]: what [generateId] raises rejects the promise. *)
Definition append (message : CreateMessage) (o : ChatRequestOptions)
    (st : State) : Promise * State :=
  match assign_id message st with
  | (inl r, st) => (Resolved (Rejected r), st)
  | (inr m, st) =>
    triggerRequest
      (mkChatRequest (messages st ++ [m]) (cro_options o) (cro_functions o)
         (cro_function_call o) (cro_tools o) (cro_tool_choice o)) st
  end.

(** [reload] (lines 232-265) *)
Definition reload (o : ChatRequestOptions) (st : State) : Promise * State :=
  let messagesSnapshot := messages st in
  if bool_decide (length messagesSnapshot = 0) then (Resolved ResolvedNull, st)
  else
    let lastMessage := last messagesSnapshot in
    if bool_decide (msg_role <$> lastMessage = Some RoleAssistant) then
      triggerRequest
        (mkChatRequest (slice_0_minus1 messagesSnapshot) (cro_options o)
           (cro_functions o) (cro_function_call o) (cro_tools o)
           (cro_tool_choice o)) st
    else
      triggerRequest
        (mkChatRequest messagesSnapshot (cro_options o) (cro_functions o)
           (cro_function_call o) (cro_tools o) (cro_tool_choice o)) st.

(** [stop] (lines 267-272); [abort()] marks the controller aborted. *)
Definition stop (st : State) : State :=
  match abortController st with
  | Some c => set_abortController None (set_aborted ({[c]} ∪ aborted st) st)
  | None => st
  end.

(** [setMessages] (lines 274-276) *)
Definition setMessages (msgs : list Message) (st : State) : State :=
  mutate msgs st.

(** [handleSubmit] (lines 278-292); [now] is the date it constructs.
    [e.preventDefault()] acts on the caller's event only. *)
Definition handleSubmit (now : Z) (o : ChatRequestOptions) (st : State)
    : State :=
  let inputValue := input st in
  if bool_decide (inputValue = "") then st
  else
    let '(_, st) :=
      append
        (mkCreateMessage None (Some now) RoleUser inputValue None None None
           None) o st in
    set_input "" st.

(** *** The transition system *)

Inductive ApiCall :=
  | CallAppend (m : CreateMessage) (o : ChatRequestOptions)
  | CallReload (o : ChatRequestOptions)
  | CallStop
  | CallSetMessages (msgs : list Message)
  | CallHandleSubmit (now : Z) (o : ChatRequestOptions)
  | CallSetInput (s : string).

(** What [processChatStream] and [callChatApi] can do to the frame they
    serve: call the thunk, reassign the request, deliver an update,
    restore, and settle. An event for a frame that is not suspended, or a
    callback of a frame whose thunk has not been called, has nothing to act
    on and leaves the state as it is. *)
Inductive TransportEvent :=
  | EvGetStreamedResponse
  | EvUpdateChatRequest (r : ChatRequest)
  | EvUpdate (merged : list Message) (data : option (list JSValue))
  | EvRestore
  | EvSettle (c : Completion).

Inductive Label :=
  | Api (c : ApiCall)
  | Ev (e : nat) (t : TransportEvent).

Definition step (st : State) (l : Label) : State :=
  match l with
  | Api (CallAppend m o) => (append m o st).2
  | Api (CallReload o) => (reload o st).2
  | Api CallStop => stop st
  | Api (CallSetMessages msgs) => setMessages msgs st
  | Api (CallHandleSubmit now o) => handleSubmit now o st
  | Api (CallSetInput s) => set_input s st
  | Ev e EvGetStreamedResponse => getStreamedResponse_thunk e st
  | Ev e (EvUpdateChatRequest r) => updateChatRequest e r st
  | Ev e (EvUpdate merged data) =>
    with_call e (λ c, onUpdate c merged data) st
  | Ev e EvRestore => with_call e restoreMessagesOnFailure st
  | Ev e (EvSettle c) => triggerRequest_settled e c st
  end.

Definition run (st : State) (ls : list Label) : State := foldl step st ls.

End Session.

(** ** Scripts of the transport *)

(** One streamed update: the merged response messages and the data
    received so far. *)
Definition Update : Type := list Message * option (list JSValue).

Definition deliver (e : nat) (updates : list Update) : list Label :=
  (λ u, Ev e (EvUpdate u.1 u.2)) <$> updates.

(** A request/response cycle that has opened: the thunk has been called -
    the callbacks of the cycle exist only from then on - and updates have
    arrived through [onUpdate]. *)
Definition exchange_opens (e : nat) (updates : list Update) : list Label :=
  Ev e EvGetStreamedResponse :: deliver e updates.

(** How one request/response cycle ends on the wire. *)
Inductive Response :=
  | Finished
  | Cancelled (err : Thrown)
  | Failed (err : Thrown).

(** Modelled from the spec: [callChatApi] and [processChatStream]
    ([../shared/call-chat-api], [../shared/process-chat-stream]) are not
    among the sources, so that what they do with [restoreMessagesOnFailure]
    before they raise is taken from sections 4.3 and 7 of the
    specification: on success the exchange returns; on transport-level
    cancellation it raises the abort error without restoring prior state;
    on any other failure it restores the conversation to the snapshot
    captured before the exchange began, then surfaces the error. *)
Definition exchange_closes (e : nat) (r : Response) : list Label :=
  match r with
  | Finished => [Ev e (EvSettle Returned)]
  | Cancelled err => [Ev e (EvSettle (Threw err))]
  | Failed err => [Ev e EvRestore; Ev e (EvSettle (Threw err))]
  end.

(** ** Sample data *)

Module Sample.

Definition user_message (i c : string) : Message :=
  mkMessage i (Some 1700000000000%Z) RoleUser c None None None None.

Definition assistant_message (i c : string) : Message :=
  mkMessage i (Some 1700000000500%Z) RoleAssistant c None None None None.

Definition hi : CreateMessage :=
  mkCreateMessage None None RoleUser "Hi" None None None None.

Definition no_options : ChatRequestOptions :=
  mkChatRequestOptions None None None None None.

Definition ids (n : nat) : string := "id-" +:+ pretty n.

Definition options : UseChatOptions :=
  mkUseChatOptions None (Some "room") None None None None true
    (λ _, None) None None None (Some ids) (λ _, None).

Definition cfg : Config := (useChat ids options ∅ 0).1.
Definition st0 : State := (useChat ids options ∅ 0).2.

Definition handler_error : Thrown := mkThrown true (Some "Error") "in onError".

(** The same session with a handler that raises. *)
Definition raising_options : UseChatOptions :=
  mkUseChatOptions None (Some "room") None None None None true
    (λ _, Some (RaisedValue handler_error)) None None None (Some ids)
    (λ _, None).

Definition raising_cfg : Config := (useChat ids raising_options ∅ 0).1.

Definition id_error : Thrown := mkThrown true (Some "Error") "no more ids".

(** The same session with a [generateId] that raises. *)
Definition no_id_options : UseChatOptions :=
  mkUseChatOptions None (Some "room") None None None None true
    (λ _, None) None None None (Some ids)
    (λ _, Some (RaisedValue id_error)).

Definition no_id_cfg : Config := (useChat ids no_id_options ∅ 0).1.

Definition parse_error : Thrown := mkThrown true (Some "ParseError") "bad chunk".
Definition abort_error : Thrown :=
  mkThrown true (Some "AbortError") "The operation was aborted.".

(** A raised value that is not an [Error]: a string, say. *)
Definition plain_value : Thrown := mkThrown false None "boom".

End Sample.

(** ** Derived notions *)

(** The state once the thunk has run and the updates have arrived. *)
Definition opened (cfg : Config) (e : nat) (updates : list Update)
    (st1 : State) : State :=
  run cfg st1 (exchange_opens e updates).

(** The callbacks of the cycle opened right after [triggerRequest]. *)
Definition first_call (chatRequest : ChatRequest) (st0 : State) : Call :=
  mkCall chatRequest (streamData st0) (messages st0)
    (Some (controllers st0)).

(** The label that resumes frame [e]. *)
Definition settles (e : nat) (l : Label) : bool :=
  match l with
  | Ev e' (EvSettle _) => bool_decide (e' = e)
  | _ => false
  end.

(** How [triggerRequest] settles its promise, by the way
    [processChatStream] settled: [return null] after the await and in the
    abort branch, [undefined] at the end of the [catch] clause, a rejection
    when the [catch] clause itself raises. *)
Definition resolution_of (cfg : Config) (c : Completion) : Resolution :=
  match c with
  | Returned => ResolvedNull
  | Threw err =>
    if is_AbortError err then ResolvedNull
    else
      match handler_raises cfg err with
      | Some r => Rejected r
      | None => ResolvedUndefined
      end
  | ThrewNullish => Rejected (RaisedValue TypeError_reading_name)
  end.

(** What the promise of the suspended frame [e] does and what becomes of
    the error observable, whatever happens before the frame is settled:
    [null] when [processChatStream] returned or raised an abort error;
    [undefined], with the raised value in the error observable, when it
    raised another value whose name can be read and the handler, if
    called, returned; a rejection, with the error observable untouched,
    when the handler raised or the raised value was [null] or
    [undefined]. *)
Definition settles_as_coded (cfg : Config) (e : nat) (st1 : State) : Prop :=
  ∀ labels c, Forall (λ l, settles e l = false) labels →
    let st := run cfg st1 labels in
    let st' := step cfg st (Ev e (EvSettle c)) in
    match c with
    | Returned => settled st' !! e = Some ResolvedNull ∧ error st' = error st
    | Threw err =>
      if is_AbortError err
      then settled st' !! e = Some ResolvedNull ∧ error st' = error st
      else
        match handler_raises cfg err with
        | None =>
          settled st' !! e = Some ResolvedUndefined ∧ error st' = Some err
        | Some r =>
          settled st' !! e = Some (Rejected r) ∧ error st' = error st
        end
    | ThrewNullish =>
      settled st' !! e = Some (Rejected (RaisedValue TypeError_reading_name))
      ∧ error st' = error st
    end.

(** The calls and events that leave the callbacks of frame [e] in place:
    all but a further call of its thunk and its settling. *)
Definition keeps_call (e : nat) (l : Label) : bool :=
  match l with
  | Ev e' EvGetStreamedResponse | Ev e' (EvSettle _) =>
    negb (bool_decide (e' = e))
  | _ => true
  end.

(** The calls and events that leave the held controller alone: all but
    the start of an exchange, [stop], and the settling of an exchange that
    returned or raised an abort error. *)
Definition keeps_controller (l : Label) : bool :=
  match l with
  | Api (CallAppend _ _) | Api (CallReload _) | Api (CallHandleSubmit _ _)
  | Api CallStop | Ev _ (EvSettle Returned) => false
  | Ev _ (EvSettle (Threw err)) => negb (is_AbortError err)
  | _ => true
  end.

(** The request [reload] hands to [triggerRequest] for a conversation
    [init ++ [lastMessage]]. *)
Definition reload_request (o : ChatRequestOptions) (init : list Message)
    (lastMessage : Message) : ChatRequest :=
  mkChatRequest
    (if decide (msg_role lastMessage = RoleAssistant) then init
     else init ++ [lastMessage])
    (cro_options o) (cro_functions o) (cro_function_call o) (cro_tools o)
    (cro_tool_choice o).


(** A step either leaves the conversation and the store alone, or ends
    with the conversation recorded under the session's key. *)
Definition store_follows (cfg : Config) (st st' : State) : Prop :=
  (messages st' = messages st ∧ store st' = store st)
  ∨ store st' !! key cfg = Some (messages st').

(** The states a session goes through. *)
Inductive reachable (cfg : Config) (init : State) : State → Prop :=
  | reachable_init : reachable cfg init init
  | reachable_step st l :
      reachable cfg init st → reachable cfg init (step cfg st l).

(** Frames and controllers are numbered below the next free number. *)
Record numbered (st : State) : Prop := mkNumbered {
  numbered_frames : ∀ e, is_Some (inflight st !! e) → e < exchanges st;
  numbered_held : ∀ k, abortController st = Some k → k < controllers st;
  numbered_refs : ∀ e ex c k,
    inflight st !! e = Some ex → ex_call ex = Some c →
    call_abortControllerRef c = Some k → k < controllers st;
}.

(** ** Proof steps that recur *)

(** Case analysis on the label of a step; [e] names the frame of a
    transport event. *)
Ltac step_cases l e :=
  destruct l as [[m o|o| |msgs|now o|s]|e [|r|merged d| |c]]; cbn [step].

(** The paths of a settling frame: return, abort error, other error
    (with or without a call of [onError], which returns or raises), and
    [null] or [undefined]. *)
Ltac settle_paths cfg c :=
  unfold handler_raises;
  destruct c as [|?err|];
  [|destruct (is_AbortError err);
    [|destruct (onError cfg && instanceofError err);
      [destruct (onError_raises cfg err)|]]|].

(** Unfolds a step down to the fields of the state. *)
Ltac unfold_step :=
  unfold handleSubmit, append, assign_id, reload, triggerRequest, stop,
    setMessages, getStreamedResponse_thunk, getStreamedResponse,
    updateChatRequest, with_call, onUpdate, restoreMessagesOnFailure,
    triggerRequest_settled, catch_clause, handler_raises, finally_resolve,
    mutate in *.

(** ** Basic facts about the operations *)

Section Facts.
Context (cfg : Config).

Lemma run_app st ls1 ls2 :
  run cfg st (ls1 ++ ls2) = run cfg (run cfg st ls1) ls2.
Proof. apply foldl_app. Qed.

Lemma run_cons st l ls : run cfg st (l :: ls) = run cfg (step cfg st l) ls.
Proof. reflexivity. Qed.

(** [mutate] writes the same list to the store and to the observable. *)
Lemma mutate_messages data st : messages (mutate cfg data st) = data.
Proof. reflexivity. Qed.

Lemma mutate_store data st :
  store (mutate cfg data st) !! key cfg = Some data.
Proof. simpl. apply lookup_insert_eq. Qed.

(** The last write wins. *)
Lemma mutate_mutate d1 d2 st :
  mutate cfg d2 (mutate cfg d1 st) = mutate cfg d2 st.
Proof.
  unfold mutate, set_messages, set_store; simpl.
  f_equal. apply insert_insert_eq.
Qed.

Lemma onUpdate_onUpdate c m1 d1 m2 d2 st :
  onUpdate cfg c m2 d2 (onUpdate cfg c m1 d1 st) = onUpdate cfg c m2 d2 st.
Proof.
  change (onUpdate cfg c m2 d2 (onUpdate cfg c m1 d1 st))
    with (set_streamData
            (Some (default [] (call_existingData c) ++ default [] d2))
            (mutate cfg (cr_messages (call_chatRequest c) ++ m2)
               (mutate cfg (cr_messages (call_chatRequest c) ++ m1) st))).
  by rewrite mutate_mutate.
Qed.

(** [append] is rejected at the call of [generateId], or it hands
    [triggerRequest] the conversation followed by the message, having
    drawn an id or not. *)
Lemma append_cases m o st :
  (∃ r, append cfg m o st
        = (Resolved (Rejected r), set_idCalls (S (idCalls st)) st))
  ∨ (∃ i s,
       (s = st ∨ s = set_idCalls (S (idCalls st)) st)
       ∧ append cfg m o st
         = triggerRequest
             (mkChatRequest (messages st ++ [as_Message i m]) (cro_options o)
                (cro_functions o) (cro_function_call o) (cro_tools o)
                (cro_tool_choice o)) s).
Proof.
  unfold append, assign_id.
  destruct (nonempty_string (cm_id m)) as [i|].
  - right. exists i, st. by split; [left|].
  - destruct (generateId_raises cfg (idCalls st)) as [r|].
    + left. by exists r.
    + right. eexists _, _. by split; [right|].
Qed.

Lemma with_call_found e f st ex c :
  inflight st !! e = Some ex → ex_call ex = Some c →
  with_call e f st = f c st.
Proof. intros He Hc. unfold with_call. by rewrite He; simpl; rewrite Hc. Qed.

(** The updates of a cycle are absorbed by the last one. *)
Lemma run_deliver e ex c updates st :
  inflight st !! e = Some ex → ex_call ex = Some c →
  run cfg st (deliver e updates) =
    from_option (λ u, onUpdate cfg c u.1 u.2 st) st (last updates).
Proof.
  intros He Hc. revert st He.
  induction updates as [|u us IH]; intros st He; [done|].
  cbn [deliver fmap list_fmap]. rewrite run_cons. cbn [step].
  rewrite (with_call_found _ _ _ _ _ He Hc).
  fold (deliver e us). rewrite IH by done.
  destruct us as [|u' us']; [done|].
  rewrite !last_cons.
  destruct (last us') as [u''|]; simpl; apply onUpdate_onUpdate.
Qed.

(** After the thunk has run, the frame holds the callbacks of the call
    it made. *)
Lemma thunk_call e ex st :
  inflight st !! e = Some ex →
  inflight (getStreamedResponse_thunk cfg e st) !! e =
    Some (mkExchange (ex_chatRequest ex)
            (Some (mkCall (ex_chatRequest ex) (streamData st) (messages st)
                     (abortController st)))).
Proof.
  intros He. unfold getStreamedResponse_thunk. rewrite He. simpl.
  apply lookup_insert_eq.
Qed.

End Facts.

(** ** The course of one exchange *)

Section Exchange.
Context (cfg : Config).

Lemma triggerRequest_frame chatRequest st0 e st1 :
  triggerRequest chatRequest st0 = (Pending e, st1) →
  inflight st1 !! e = Some (mkExchange chatRequest None)
  ∧ messages st1 = messages st0 ∧ streamData st1 = streamData st0
  ∧ store st1 = store st0 ∧ onErrorCalls st1 = onErrorCalls st0
  ∧ requests st1 = requests st0 ∧ aborted st1 = aborted st0
  ∧ abortController st1 = Some (controllers st0)
  ∧ error st1 = None ∧ loading st1 = true.
Proof.
  unfold triggerRequest. intros H. cbv zeta in H. injection H as <- <-. simpl.
  split; [apply lookup_insert_eq | done].
Qed.

(** What an opened cycle looks like: the messages are those of the
    request followed by the latest merged response. *)
Lemma opened_spec chatRequest st0 e st1 updates :
  triggerRequest chatRequest st0 = (Pending e, st1) →
  let c := first_call chatRequest st0 in
  let st2 := opened cfg e updates st1 in
  inflight st2 !! e = Some (mkExchange chatRequest (Some c))
  ∧ messages st2 =
      cr_messages chatRequest ++ from_option fst [] (last updates)
  ∧ store st2 !! key cfg = Some (messages st2)
  ∧ error st2 = None ∧ loading st2 = true
  ∧ onErrorCalls st2 = onErrorCalls st0
  ∧ aborted st2 = aborted st0
  ∧ abortController st2 = Some (controllers st0)
  ∧ settled st2 = settled st1
  ∧ requests st2 =
      requests st0 ++
      [mkRequest (api cfg)
         (constructedMessagesPayload (sendExtraMessageFields cfg)
            (cr_messages chatRequest))
         (request_body cfg chatRequest) (streamMode cfg) (credentials cfg)
         (request_headers cfg chatRequest) (Some (controllers st0))].
Proof.
  intros Htr c st2.
  destruct (triggerRequest_frame _ _ _ _ Htr)
    as (Hfr & Hm & Hd & Hs & Ho & Hr & Ha & Hc & He & Hl).
  pose proof (thunk_call cfg e _ st1 Hfr) as Hth.
  subst st2. unfold opened, exchange_opens. rewrite run_cons. cbn [step].
  rewrite (run_deliver cfg e _ _ updates _ Hth eq_refl).
  unfold getStreamedResponse_thunk in *. rewrite Hfr in *. simpl in Hth |- *.
  destruct (last updates) as [[merged d]|]; simpl;
    rewrite ?app_nil_r, ?lookup_insert_eq;
    subst c; unfold first_call; rewrite <- Hd, <- Hm, <- Hc, <- Hr;
    by repeat split.
Qed.

(** The ways a suspended [triggerRequest] resumes. None of them
    touches the messages, the store or the stream data. *)
Lemma settled_returned e ex st :
  inflight st !! e = Some ex →
  let st' := triggerRequest_settled cfg e Returned st in
  settled st' !! e = Some ResolvedNull
  ∧ loading st' = false ∧ abortController st' = None
  ∧ error st' = error st ∧ onErrorCalls st' = onErrorCalls st
  ∧ messages st' = messages st ∧ store st' = store st
  ∧ streamData st' = streamData st ∧ aborted st' = aborted st.
Proof.
  intros He. unfold triggerRequest_settled. rewrite He. simpl.
  rewrite lookup_insert_eq. by repeat split.
Qed.

Lemma settled_aborted e ex err st :
  inflight st !! e = Some ex → is_AbortError err = true →
  let st' := triggerRequest_settled cfg e (Threw err) st in
  settled st' !! e = Some ResolvedNull
  ∧ loading st' = false ∧ abortController st' = None
  ∧ error st' = error st ∧ onErrorCalls st' = onErrorCalls st
  ∧ messages st' = messages st ∧ store st' = store st
  ∧ streamData st' = streamData st ∧ aborted st' = aborted st.
Proof.
  intros He Hab. unfold triggerRequest_settled, catch_clause.
  rewrite He, Hab. simpl. rewrite lookup_insert_eq. by repeat split.
Qed.

(** On the failure path the error observable is written only if the
    handler, when called, returns. *)
Lemma settled_failed e ex err st :
  inflight st !! e = Some ex → is_AbortError err = false →
  let st' := triggerRequest_settled cfg e (Threw err) st in
  settled st' !! e = Some (resolution_of cfg (Threw err))
  ∧ loading st' = false ∧ abortController st' = abortController st
  ∧ error st' =
      match handler_raises cfg err with
      | Some _ => error st
      | None => Some err
      end
  ∧ onErrorCalls st' =
      onErrorCalls st ++
      (if onError cfg && instanceofError err then [err] else [])
  ∧ messages st' = messages st ∧ store st' = store st
  ∧ streamData st' = streamData st ∧ aborted st' = aborted st.
Proof.
  intros He Hab. unfold triggerRequest_settled, catch_clause, resolution_of.
  rewrite He, Hab. unfold handler_raises.
  destruct (onError cfg && instanceofError err);
    [destruct (onError_raises cfg err)|]; simpl;
    rewrite lookup_insert_eq, ?app_nil_r; by repeat split.
Qed.

Lemma settled_nullish e ex st :
  inflight st !! e = Some ex →
  let st' := triggerRequest_settled cfg e ThrewNullish st in
  settled st' !! e = Some (Rejected (RaisedValue TypeError_reading_name))
  ∧ loading st' = false ∧ abortController st' = abortController st
  ∧ error st' = error st ∧ onErrorCalls st' = onErrorCalls st
  ∧ messages st' = messages st ∧ store st' = store st
  ∧ streamData st' = streamData st ∧ aborted st' = aborted st.
Proof.
  intros He. unfold triggerRequest_settled, catch_clause. rewrite He. simpl.
  rewrite lookup_insert_eq. by repeat split.
Qed.

End Exchange.

(** ** Failure, cancellation and cleanup *)

(** [stop] touches nothing but the held controller and the set of aborted
    ones. *)
Lemma stop_frame st :
  messages (stop st) = messages st ∧ store (stop st) = store st
  ∧ streamData (stop st) = streamData st ∧ loading (stop st) = loading st
  ∧ error (stop st) = error st ∧ input (stop st) = input st
  ∧ onErrorCalls (stop st) = onErrorCalls st
  ∧ inflight (stop st) = inflight st ∧ settled (stop st) = settled st
  ∧ requests (stop st) = requests st.
Proof. unfold stop. by destruct (abortController st). Qed.

Lemma stop_aborts st c :
  abortController st = Some c →
  c ∈ aborted (stop st) ∧ abortController (stop st) = None.
Proof. unfold stop. intros ->. simpl. split; [set_solver | done]. Qed.

(** C4. An exchange cancelled by [stop()], whose transport then raises an
    error named AbortError: the promise resolves with [null]; the error
    observable still holds the [undefined] written when the exchange began
    and [onError] has not been called; the messages are those that had been
    applied when [stop()] was called, the request followed by the latest
    partial response. The controller of the exchange is aborted and no
    longer held, and loading is back to false. *)
Theorem stopped_exchange_resolves_silently
    cfg chatRequest st0 e st1 updates err :
  triggerRequest chatRequest st0 = (Pending e, st1) →
  is_AbortError err = true →
  let st2 := run cfg st1 (exchange_opens e updates) in
  let st' := run cfg st2 (Api CallStop :: exchange_closes e (Cancelled err)) in
  settled st' !! e = Some ResolvedNull
  ∧ error st' = None
  ∧ onErrorCalls st' = onErrorCalls st0
  ∧ messages st' = messages st2
  ∧ messages st' = cr_messages chatRequest ++ from_option fst [] (last updates)
  ∧ store st' !! key cfg = Some (messages st')
  ∧ controllers st0 ∈ aborted st'
  ∧ abortController st' = None
  ∧ loading st' = false.
Proof.
  intros Htr Hab st2 st'. subst st' st2. fold (opened cfg e updates st1).
  destruct (opened_spec cfg _ _ _ _ updates Htr)
    as (Hfr & Hm & Hs & He & _ & Ho & _ & Hc & _).
  set (st2 := opened cfg e updates st1) in *.
  cbn [exchange_closes]. rewrite !run_cons. cbn [run foldl step].
  destruct (stop_frame st2)
    as (Hm3 & Hs3 & _ & _ & He3 & _ & Ho3 & Hfr3 & _).
  destruct (stop_aborts st2 _ Hc) as (Hin & _).
  rewrite <- Hfr3 in Hfr.
  destruct (settled_aborted cfg e _ err (stop st2) Hfr Hab)
    as (Hr & Hl & Hc4 & He4 & Ho4 & Hm4 & Hs4 & _ & Ha4).
  rewrite Hr, Hl, Hc4, He4, Ho4, Hm4, Hs4, Ha4.
  rewrite Hm3, Hs3, He3, Ho3, Hs, Hm. by repeat split.
Qed.

(** C4 on the sample session: "Hel" has streamed in when [stop()] is
    called; it stays. *)
Lemma stopped_exchange_resolves_silently_witness :
  let st2 :=
    run Sample.cfg (append Sample.cfg Sample.hi Sample.no_options Sample.st0).2
      (exchange_opens 0 [([Sample.assistant_message "a" "Hel"], None)]) in
  let st' :=
    run Sample.cfg st2
      (Api CallStop :: exchange_closes 0 (Cancelled Sample.abort_error)) in
  settled st' !! 0 = Some ResolvedNull
  ∧ error st' = None
  ∧ onErrorCalls st' = []
  ∧ messages st' = messages st2
  ∧ messages st' =
      [as_Message "id-0" Sample.hi; Sample.assistant_message "a" "Hel"]
  ∧ store st' !! "/api/chat|room" = Some (messages st')
  ∧ 0 ∈ aborted st'
  ∧ abortController st' = None
  ∧ loading st' = false.
Proof.
  exact
    (stopped_exchange_resolves_silently Sample.cfg
       (mkChatRequest [as_Message "id-0" Sample.hi] None None None None None)
       (set_idCalls 1 Sample.st0) 0
       (append Sample.cfg Sample.hi Sample.no_options Sample.st0).2
       [([Sample.assistant_message "a" "Hel"], None)] Sample.abort_error
       eq_refl eq_refl).
Defined.

(** ** The promises of [append] and [reload] *)

Section Promises.
Context (cfg : Config).

Lemma with_call_loading e f st :
  (∀ c s, loading (f c s) = loading s ∧ inflight (f c s) = inflight s) →
  loading (with_call e f st) = loading st
  ∧ inflight (with_call e f st) = inflight st.
Proof.
  intros Hf. unfold with_call.
  destruct (inflight st !! e ≫= ex_call); [apply Hf | done].
Qed.

Lemma triggerRequest_pending chatRequest st :
  ∃ e st1, triggerRequest chatRequest st = (Pending e, st1)
           ∧ is_Some (inflight st1 !! e).
Proof.
  eexists _, _. split; [reflexivity|]. simpl.
  rewrite lookup_insert_eq. by eexists.
Qed.

Lemma triggerRequest_keeps e chatRequest st :
  is_Some (inflight st !! e) →
  is_Some (inflight (triggerRequest chatRequest st).2 !! e).
Proof.
  intros H. simpl. rewrite lookup_insert_is_Some'. by right.
Qed.

Lemma append_keeps e m o st :
  is_Some (inflight st !! e) →
  is_Some (inflight (append cfg m o st).2 !! e).
Proof.
  intros H.
  destruct (append_cases cfg m o st) as [[r ->]|(i & s & [-> | ->] & ->)];
    [done|by apply triggerRequest_keeps..].
Qed.

(** A suspended frame stays until the label that settles it. *)
Lemma step_keeps_frame e st l :
  settles e l = false →
  is_Some (inflight st !! e) → is_Some (inflight (step cfg st l) !! e).
Proof.
  intros Hl H.
  step_cases l e'.
  - by apply append_keeps.
  - unfold reload. repeat case_bool_decide; try done;
      by apply triggerRequest_keeps.
  - by destruct (stop_frame st) as (_ & _ & _ & _ & _ & _ & _ & -> & _).
  - done.
  - unfold handleSubmit. case_bool_decide; [done|].
    pose proof (append_keeps e
      (mkCreateMessage None (Some now) RoleUser (input st) None None None
         None) o st H) as Hk.
    by destruct (append cfg _ o st).
  - done.
  - unfold getStreamedResponse_thunk.
    destruct (inflight st !! e') eqn:He'; [|done]. simpl.
    rewrite lookup_insert_is_Some'. by right.
  - unfold updateChatRequest.
    destruct (inflight st !! e') eqn:He'; [|done]. simpl.
    rewrite lookup_insert_is_Some'. by right.
  - by destruct (with_call_loading e' (λ c, onUpdate cfg c merged d) st)
      as [_ ->].
  - by destruct (with_call_loading e' (restoreMessagesOnFailure cfg) st)
      as [_ ->].
  - simpl in Hl. case_bool_decide as Hne; [done|].
    unfold triggerRequest_settled, catch_clause.
    destruct (inflight st !! e') eqn:He'; [|done].
    assert (is_Some (delete e' (inflight st) !! e))
      by (by rewrite lookup_delete_ne).
    settle_paths cfg c; done.
Qed.

Lemma run_keeps_frame e ls : ∀ st,
  Forall (λ l, settles e l = false) ls →
  is_Some (inflight st !! e) → is_Some (inflight (run cfg st ls) !! e).
Proof.
  induction ls as [|l ls IH]; intros st Hls H; [done|].
  rewrite run_cons. inversion_clear Hls.
  apply IH; [done|]. by apply step_keeps_frame.
Qed.

(** How the promise of a suspended frame settles, and what becomes of the
    error observable. *)
Lemma settle_resolution e c st :
  is_Some (inflight st !! e) →
  let st' := triggerRequest_settled cfg e c st in
  settled st' !! e = Some (resolution_of cfg c)
  ∧ error st' =
      match resolution_of cfg c, c with
      | ResolvedUndefined, Threw err => Some err
      | _, _ => error st
      end.
Proof.
  intros [ex He]. destruct c as [|err|]; simpl.
  - by destruct (settled_returned cfg e ex st He) as (-> & _ & _ & -> & _).
  - destruct (is_AbortError err) eqn:Hab.
    + by destruct (settled_aborted cfg e ex err st He Hab)
        as (-> & _ & _ & -> & _).
    + destruct (settled_failed cfg e ex err st He Hab)
        as (-> & _ & _ & -> & _).
      unfold resolution_of. rewrite Hab.
      by destruct (handler_raises cfg err).
  - by destruct (settled_nullish cfg e ex st He) as (-> & _ & _ & -> & _).
Qed.

(** A suspended frame settles as [settles_as_coded] says. *)
Lemma frame_settles_as_coded e st1 :
  is_Some (inflight st1 !! e) → settles_as_coded cfg e st1.
Proof.
  intros Hin labels c Hls. cbv zeta. cbn [step].
  destruct (settle_resolution e c (run cfg st1 labels)) as [Hs Herr];
    [by apply run_keeps_frame|].
  rewrite Hs, Herr. unfold resolution_of.
  destruct c as [|err|]; [done| |done].
  destruct (is_AbortError err); [done|].
  by destruct (handler_raises cfg err).
Qed.

(** Settling a frame leaves loading false, on every path. *)
Lemma settle_loading e c st :
  is_Some (inflight st !! e) →
  loading (triggerRequest_settled cfg e c st) = false.
Proof.
  intros [ex He]. unfold triggerRequest_settled, catch_clause. rewrite He.
  settle_paths cfg c; done.
Qed.

End Promises.

(** C5. [triggerRequest] begins by clearing the error observable and
    raising loading. Whatever the transport and the application do before
    the exchange settles, when it settles - by returning, by an abort error
    or by any other error - the [finally] clause leaves loading false. *)
Theorem loading_raised_then_cleared cfg chatRequest st0 e st1 labels c :
  triggerRequest chatRequest st0 = (Pending e, st1) →
  Forall (λ l, settles e l = false) labels →
  error st1 = None
  ∧ loading st1 = true
  ∧ loading (run cfg st1 (labels ++ [Ev e (EvSettle c)])) = false.
Proof.
  intros Htr Hls.
  destruct (triggerRequest_frame _ _ _ _ Htr)
    as (Hfr & _ & _ & _ & _ & _ & _ & _ & He & Hl).
  split; [done|]. split; [done|].
  rewrite run_app. cbn [run foldl step].
  apply settle_loading, run_keeps_frame; [done|]. by rewrite Hfr.
Qed.

(** C5 on the sample session, for each of the three ways to end. *)
Lemma loading_raised_then_cleared_witness :
  let st1 := (append Sample.cfg Sample.hi Sample.no_options Sample.st0).2 in
  let script :=
    exchange_opens 0 [([Sample.assistant_message "a" "Hel"], None)] in
  (error st1 = None ∧ loading st1 = true
   ∧ loading (run Sample.cfg st1 (script ++ [Ev 0 (EvSettle Returned)]))
     = false)
  ∧ (error st1 = None ∧ loading st1 = true
     ∧ loading (run Sample.cfg st1
                  (script ++ [Ev 0 (EvSettle (Threw Sample.abort_error))]))
       = false)
  ∧ (error st1 = None ∧ loading st1 = true
     ∧ loading (run Sample.cfg st1
                  ((script ++ [Ev 0 EvRestore]) ++
                   [Ev 0 (EvSettle (Threw Sample.parse_error))]))
       = false).
Proof.
  pose (req :=
    mkChatRequest [as_Message "id-0" Sample.hi] None None None None None).
  pose (s0 := set_idCalls 1 Sample.st0).
  assert (Hs : Forall (λ l, settles 0 l = false)
                 (exchange_opens 0
                    [([Sample.assistant_message "a" "Hel"], None)]))
    by (repeat constructor).
  assert (Hr : Forall (λ l, settles 0 l = false)
                 (exchange_opens 0
                    [([Sample.assistant_message "a" "Hel"], None)]
                  ++ [Ev 0 EvRestore]))
    by (repeat constructor).
  exact
    (conj
       (loading_raised_then_cleared Sample.cfg req s0 0 _ _ Returned eq_refl Hs)
       (conj
          (loading_raised_then_cleared Sample.cfg req s0 0 _ _
             (Threw Sample.abort_error) eq_refl Hs)
          (loading_raised_then_cleared Sample.cfg req s0 0 _ _
             (Threw Sample.parse_error) eq_refl Hr))).
Defined.

(** C10, refuted as stated: the promise of [append] is rejected when the
    transport raises [null] or [undefined] (reading [name] raises a
    [TypeError] inside the [catch] clause), when the [onError] handler
    raises, and when [generateId] raises; in none of these cases does the
    error observable receive anything. *)
Lemma append_promise_rejected :
  let after cfg c :=
    run cfg (append cfg Sample.hi Sample.no_options Sample.st0).2
      (exchange_opens 0 [] ++ [Ev 0 (EvSettle c)]) in
  let nullish := after Sample.cfg ThrewNullish in
  let raising := after Sample.raising_cfg (Threw Sample.parse_error) in
  let no_id :=
    append Sample.no_id_cfg Sample.hi Sample.no_options Sample.st0 in
  (settled nullish !! 0
     = Some (Rejected (RaisedValue TypeError_reading_name))
   ∧ error nullish = None ∧ loading nullish = false)
  ∧ (settled raising !! 0 = Some (Rejected (RaisedValue Sample.handler_error))
     ∧ error raising = None
     ∧ onErrorCalls raising = [Sample.parse_error]
     ∧ loading raising = false)
  ∧ (no_id.1 = Resolved (Rejected (RaisedValue Sample.id_error))
     ∧ error no_id.2 = None ∧ inflight no_id.2 = ∅).
Proof. vm_compute. by repeat split. Qed.

(** C10, amended. [reload] on an empty conversation resolves with [null]
    at once. [append] is rejected at once with what [generateId] raises,
    when the message has no id and that call raises. In every other case
    [append] and [reload] suspend an exchange, and their promise settles
    when it does, whatever happens in between: with [null] when the
    exchange returned or raised a value named AbortError; with
    [undefined], the raised value being put in the error observable, when
    it raised another value that is neither [null] nor [undefined] and the
    [onError] handler, if called, returned; and it is rejected, the error
    observable being left as it was, with what the handler raised or with
    the [TypeError] of reading [name] of [null] or [undefined]. *)
Theorem append_reload_promises_settle cfg st :
  (∀ m o r,
     nonempty_string (cm_id m) = None →
     generateId_raises cfg (idCalls st) = Some r →
     (append cfg m o st).1 = Resolved (Rejected r))
  ∧ (∀ m o,
       is_Some (nonempty_string (cm_id m))
       ∨ generateId_raises cfg (idCalls st) = None →
       ∃ e st1,
         append cfg m o st = (Pending e, st1)
         ∧ is_Some (inflight st1 !! e)
         ∧ settles_as_coded cfg e st1)
  ∧ (∀ o, messages st = [] → reload o st = (Resolved ResolvedNull, st))
  ∧ (∀ o,
       messages st ≠ [] →
       ∃ e st1,
         reload o st = (Pending e, st1)
         ∧ is_Some (inflight st1 !! e)
         ∧ settles_as_coded cfg e st1).
Proof.
  assert (Htr : ∀ chatRequest s, ∃ e st1,
             triggerRequest chatRequest s = (Pending e, st1)
             ∧ is_Some (inflight st1 !! e)
             ∧ settles_as_coded cfg e st1).
  { intros chatRequest s.
    destruct (triggerRequest_pending chatRequest s) as (e & st1 & Htr & Hin).
    exists e, st1. split; [done|]. split; [done|].
    by apply frame_settles_as_coded. }
  split; [|split; [|split]].
  - intros m o r Hid Hr. unfold append, assign_id. by rewrite Hid, Hr.
  - intros m o Hid. unfold append, assign_id.
    destruct (nonempty_string (cm_id m)) as [i|]; [apply Htr|].
    destruct Hid as [[? [=]]| ->]. apply Htr.
  - intros o Hm. unfold reload. by rewrite Hm.
  - intros o Hm. unfold reload.
    rewrite bool_decide_eq_false_2 by (by destruct (messages st)).
    case_bool_decide; apply Htr.
Qed.

(** C10 on the sample session: the promise of [append] after the
    exchange returned, failed with a parse error, and raised [null]. *)
Lemma append_reload_promises_settle_witness :
  let st1 := (append Sample.cfg Sample.hi Sample.no_options Sample.st0).2 in
  let after c :=
    step Sample.cfg (run Sample.cfg st1 (exchange_opens 0 []))
      (Ev 0 (EvSettle c)) in
  (append Sample.cfg Sample.hi Sample.no_options Sample.st0).1 = Pending 0
  ∧ settled (after Returned) !! 0 = Some ResolvedNull
  ∧ (settled (after (Threw Sample.parse_error)) !! 0 = Some ResolvedUndefined
     ∧ error (after (Threw Sample.parse_error)) = Some Sample.parse_error)
  ∧ (settled (after ThrewNullish) !! 0
       = Some (Rejected (RaisedValue TypeError_reading_name))
     ∧ error (after ThrewNullish) = None).
Proof.
  destruct (append_reload_promises_settle Sample.cfg Sample.st0)
    as (_ & Happ & _).
  destruct (Happ Sample.hi Sample.no_options (or_intror eq_refl))
    as (e & st1 & Heq & _ & Hs).
  vm_compute in Heq. injection Heq as <- <-.
  assert (Hls : Forall (λ l, settles 0 l = false) (exchange_opens 0 []))
    by (by repeat constructor).
  pose proof (Hs _ Returned Hls) as [H1 _].
  pose proof (Hs _ (Threw Sample.parse_error) Hls) as H2.
  pose proof (Hs _ ThrewNullish Hls) as H3.
  vm_compute in H1, H2, H3 |- *.
  exact (conj eq_refl (conj H1 (conj H2 H3))).
Defined.

(** The outcomes on the sample session. *)
Example append_resolutions :
  let p := append Sample.cfg Sample.hi Sample.no_options Sample.st0 in
  let after c :=
    run Sample.cfg p.2 (exchange_opens 0 [] ++ [Ev 0 (EvSettle c)]) in
  p.1 = Pending 0
  ∧ settled (after Returned) !! 0 = Some ResolvedNull
  ∧ settled (after (Threw Sample.abort_error)) !! 0 = Some ResolvedNull
  ∧ settled (after (Threw Sample.parse_error)) !! 0 = Some ResolvedUndefined
  ∧ error (after (Threw Sample.parse_error)) = Some Sample.parse_error.
Proof. vm_compute. by repeat split. Qed.

(** The first scenario of the specification: the conversation is
    [user:"Hi"], the stream delivers "Hel" then "Hello!" and finishes.
    Loading goes from false to true to false and no error is set. *)
Example scenario_success :
  let st1 := step Sample.cfg Sample.st0
               (Api (CallAppend Sample.hi Sample.no_options)) in
  let st' :=
    run Sample.cfg st1
      (exchange_opens 0
         [([Sample.assistant_message "a" "Hel"], None);
          ([Sample.assistant_message "a" "Hello!"], None)] ++
       exchange_closes 0 Finished) in
  (loading Sample.st0, loading st1, loading st') = (false, true, false)
  ∧ messages st'
    = [as_Message "id-0" Sample.hi; Sample.assistant_message "a" "Hello!"]
  ∧ error st' = None
  ∧ settled st' !! 0 = Some ResolvedNull.
Proof. by vm_compute. Qed.

(** ** [reload] *)

Lemma slice_0_minus1_snoc {A} (init : list A) (x : A) :
  slice_0_minus1 (init ++ [x]) = init.
Proof.
  unfold slice_0_minus1. rewrite length_app. simpl.
  replace (length init + 1 - 1) with (length init) by lia.
  by rewrite take_app_length.
Qed.

Lemma reload_snoc o st init lastMessage :
  messages st = init ++ [lastMessage] →
  reload o st = triggerRequest (reload_request o init lastMessage) st.
Proof.
  intros Hm. unfold reload, reload_request. rewrite Hm.
  rewrite bool_decide_eq_false_2
    by (rewrite length_app; simpl; lia).
  rewrite last_snoc, slice_0_minus1_snoc. simpl.
  destruct (decide (msg_role lastMessage = RoleAssistant)) as [Hr|Hr].
  - by rewrite bool_decide_eq_true_2 by (by rewrite Hr).
  - by rewrite bool_decide_eq_false_2 by (by intros [= ?]).
Qed.

(** C9. On an empty conversation [reload()] returns [null] at once and
    changes nothing: no frame is suspended, no request is made, and every
    observable is as it was. *)
Theorem reload_empty_is_noop cfg o st :
  messages st = [] →
  reload o st = (Resolved ResolvedNull, st)
  ∧ step cfg st (Api (CallReload o)) = st.
Proof.
  intros Hm. cbn [step]. unfold reload. rewrite Hm. by simpl.
Qed.

Lemma reload_empty_is_noop_witness :
  reload Sample.no_options Sample.st0 = (Resolved ResolvedNull, Sample.st0)
  ∧ step Sample.cfg Sample.st0 (Api (CallReload Sample.no_options))
    = Sample.st0.
Proof.
  exact (reload_empty_is_noop Sample.cfg Sample.no_options Sample.st0 eq_refl).
Defined.

(** C6, as stated, at the empty conversation: there is no last message,
    let alone an assistant one, and yet the history is not resubmitted:
    no frame is suspended and, the thunk never being called, no request is
    made. *)
Lemma reload_empty_resubmits_nothing :
  let st :=
    run Sample.cfg Sample.st0
      [Api (CallReload Sample.no_options); Ev 0 EvGetStreamedResponse] in
  last (messages Sample.st0) = None
  ∧ inflight st = ∅
  ∧ requests st = [].
Proof. by vm_compute. Qed.

(** C6, amended to conversations that have a last message. When that
    message is from the assistant the request carries the history without
    it; otherwise it carries the history as it is. Once the thunk runs, the
    conversation is the history of the request, and the request that goes
    out is built from that same list. *)
Theorem reload_resubmits cfg o st init lastMessage :
  messages st = init ++ [lastMessage] →
  let resubmitted :=
    if decide (msg_role lastMessage = RoleAssistant) then init
    else init ++ [lastMessage] in
  ∃ e st1,
    reload o st = (Pending e, st1)
    ∧ (ex_chatRequest <$> inflight st1 !! e)
      = Some (mkChatRequest resubmitted (cro_options o) (cro_functions o)
                (cro_function_call o) (cro_tools o) (cro_tool_choice o))
    ∧ messages st1 = messages st
    ∧ let st2 := step cfg st1 (Ev e EvGetStreamedResponse) in
      messages st2 = resubmitted
      ∧ (req_messages <$> requests st2)
        = (req_messages <$> requests st) ++
          [constructedMessagesPayload (sendExtraMessageFields cfg) resubmitted].
Proof.
  intros Hm resubmitted.
  rewrite (reload_snoc o st init lastMessage Hm).
  destruct (triggerRequest_pending (reload_request o init lastMessage) st)
    as (e & st1 & Htr & _).
  exists e, st1. split; [done|].
  destruct (triggerRequest_frame _ _ _ _ Htr)
    as (Hfr & Hms & _ & _ & _ & Hr & _).
  rewrite Hfr. split; [done|]. split; [done|].
  cbn [step]. unfold getStreamedResponse_thunk. rewrite Hfr. simpl.
  split; [done|]. by rewrite fmap_app, Hr.
Qed.

(** C6 (amended) on two conversations: one ending with the assistant, one
    with the user. *)
Lemma reload_resubmits_witness :
  let u := Sample.user_message "u1" "Hi" in
  let a := Sample.assistant_message "a1" "Hello!" in
  (∃ e st1,
     reload Sample.no_options (set_messages [u; a] Sample.st0) = (Pending e, st1)
     ∧ (ex_chatRequest <$> inflight st1 !! e)
       = Some (mkChatRequest [u] None None None None None)
     ∧ messages st1 = [u; a]
     ∧ messages (step Sample.cfg st1 (Ev e EvGetStreamedResponse)) = [u]
     ∧ (req_messages <$> requests (step Sample.cfg st1 (Ev e EvGetStreamedResponse)))
       = [] ++ [constructedMessagesPayload None [u]])
  ∧ (∃ e st1,
     reload Sample.no_options (set_messages [u] Sample.st0) = (Pending e, st1)
     ∧ (ex_chatRequest <$> inflight st1 !! e)
       = Some (mkChatRequest [u] None None None None None)
     ∧ messages st1 = [u]
     ∧ messages (step Sample.cfg st1 (Ev e EvGetStreamedResponse)) = [u]
     ∧ (req_messages <$> requests (step Sample.cfg st1 (Ev e EvGetStreamedResponse)))
       = [] ++ [constructedMessagesPayload None [u]]).
Proof.
  exact
    (conj
       (reload_resubmits Sample.cfg Sample.no_options
          (set_messages [Sample.user_message "u1" "Hi";
                         Sample.assistant_message "a1" "Hello!"] Sample.st0)
          [Sample.user_message "u1" "Hi"]
          (Sample.assistant_message "a1" "Hello!") eq_refl)
       (reload_resubmits Sample.cfg Sample.no_options
          (set_messages [Sample.user_message "u1" "Hi"] Sample.st0)
          [] (Sample.user_message "u1" "Hi") eq_refl)).
Defined.

(** ** The payload of a request *)

Lemma role_string_inj r1 r2 : role_string r1 = role_string r2 → r1 = r2.
Proof. by destruct r1, r2. Qed.

(** The own properties of a message object, one by one. *)
Lemma message_object_fields m :
  message_object m !! "id" = Some (JString (msg_id m))
  ∧ message_object m !! "role" = Some (JString (role_string (msg_role m)))
  ∧ message_object m !! "content" = Some (JString (msg_content m))
  ∧ message_object m !! "createdAt" = JDate <$> msg_createdAt m
  ∧ message_object m !! "name" = JString <$> msg_name m
  ∧ message_object m !! "function_call" = msg_function_call m
  ∧ message_object m !! "tool_calls" = msg_tool_calls m
  ∧ message_object m !! "tool_call_id" = JString <$> msg_tool_call_id m.
Proof.
  destruct m as [i [t|] r c [n|] [f|] [tc|] [ti|]]; by vm_compute.
Qed.

(** Nothing is lost when a message is sent as it is. *)
Lemma message_object_inj m1 m2 :
  message_object m1 = message_object m2 → m1 = m2.
Proof.
  intros Heq.
  destruct (message_object_fields m1)
    as (Hi1 & Hr1 & Hc1 & Ht1 & Hn1 & Hf1 & Htc1 & Hti1).
  destruct (message_object_fields m2)
    as (Hi2 & Hr2 & Hc2 & Ht2 & Hn2 & Hf2 & Htc2 & Hti2).
  rewrite Heq in Hi1, Hr1, Hc1, Ht1, Hn1, Hf1, Htc1, Hti1.
  destruct m1 as [i1 t1 r1 c1 n1 f1 tc1 ti1], m2 as [i2 t2 r2 c2 n2 f2 tc2 ti2].
  simpl in *.
  rewrite Hi2 in Hi1. rewrite Hr2 in Hr1. rewrite Hc2 in Hc1.
  rewrite Ht2 in Ht1. rewrite Hn2 in Hn1. rewrite Hf2 in Hf1.
  rewrite Htc2 in Htc1. rewrite Hti2 in Hti1.
  injection Hi1 as ->. injection Hr1 as Hr1. apply role_string_inj in Hr1. subst r2.
  injection Hc1 as ->. subst f2 tc2.
  destruct t1, t2, n1, n2, ti1, ti2; simplify_eq/=; done.
Qed.

(** The own properties of a projected message. *)
Lemma project_message_fields m :
  project_message m !! "role" = Some (JString (role_string (msg_role m)))
  ∧ project_message m !! "content" = Some (JString (msg_content m))
  ∧ project_message m !! "name" = JString <$> msg_name m
  ∧ project_message m !! "function_call" = msg_function_call m
  ∧ project_message m !! "tool_calls" = msg_tool_calls m
  ∧ project_message m !! "tool_call_id"
    = Some (from_option JString JUndefined (msg_tool_call_id m))
  ∧ project_message m !! "id" = None
  ∧ project_message m !! "createdAt" = None.
Proof.
  destruct m as [i t r c [n|] [f|] [tc|] [ti|]]; by vm_compute.
Qed.






Example payload_sample :
  req_messages <$>
    requests
      (run Sample.cfg Sample.st0
         [Api (CallAppend Sample.hi Sample.no_options);
          Ev 0 EvGetStreamedResponse])
  = [[ {[ "role" := JString "user" ]} ∪ {[ "content" := JString "Hi" ]}
       ∪ {[ "tool_call_id" := JUndefined ]} ]].
Proof. by vm_compute. Qed.

(** ** [stop] *)

Lemma stop_stop st : stop (stop st) = stop st.
Proof.
  unfold stop. destruct (abortController st) eqn:H; simpl; by rewrite ?H.
Qed.

Section Held.
Context (cfg : Config).

(** Such a step leaves the held controller and the aborted ones as they
    are; a request it makes carries the held controller. *)
Lemma step_keeps_controller st l :
  keeps_controller l = true →
  abortController (step cfg st l) = abortController st
  ∧ aborted (step cfg st l) = aborted st
  ∧ (requests (step cfg st l) = requests st
     ∨ ∃ r, requests (step cfg st l) = requests st ++ [r]
            ∧ req_abortController r = abortController st).
Proof.
  intros Hl.
  step_cases l e; try discriminate; unfold_step; simpl in Hl;
    repeat case_match; simplify_eq/=; try discriminate;
    (split; [done|]); (split; [done|]);
    try (by left); right; by eexists.
Qed.

Lemma run_keeps_controller ls : ∀ st,
  Forall (λ l, keeps_controller l = true) ls →
  abortController (run cfg st ls) = abortController st
  ∧ aborted (run cfg st ls) = aborted st
  ∧ ∃ new, requests (run cfg st ls) = requests st ++ new
           ∧ Forall (λ r, req_abortController r = abortController st) new.
Proof.
  induction ls as [|l ls IH]; intros st Hls.
  - split; [done|]. split; [done|]. exists []. by rewrite app_nil_r.
  - rewrite run_cons. inversion_clear Hls as [|?? Hl Hls'].
    destruct (step_keeps_controller st l Hl) as (Hh & Ha & Hr).
    destruct (IH (step cfg st l) Hls') as (-> & -> & new & -> & Hnew).
    rewrite Hh in Hnew |- *. split; [done|]. split; [done|].
    destruct Hr as [-> |(r & -> & Hr)].
    + by exists new.
    + exists (r :: new). rewrite <- app_assoc. split; [done|].
      by constructor.
Qed.

End Held.

(** C8, refuted as stated, on the sample session. Two exchanges overlap
    and the first returns: the held controller is cleared though the
    second exchange is still in flight, its request made with controller
    1. [stop()] then changes nothing - the exchange in flight is not
    cancelled. And after an exchange has failed no exchange is in flight,
    yet the controller of the failed exchange is still held: [stop()]
    aborts it. *)
Lemma stop_misses_exchange_in_flight :
  let st :=
    run Sample.cfg Sample.st0
      (Api (CallAppend Sample.hi Sample.no_options) :: exchange_opens 0 [] ++
       Api (CallAppend Sample.hi Sample.no_options) :: exchange_opens 1 [] ++
       [Ev 0 (EvSettle Returned)]) in
  let failed :=
    run Sample.cfg Sample.st0
      (Api (CallAppend Sample.hi Sample.no_options) :: exchange_opens 0 [] ++
       [Ev 0 (EvSettle (Threw Sample.parse_error))]) in
  (dom (inflight st) = {[1]}
   ∧ (req_abortController <$> last (requests st)) = Some (Some 1)
   ∧ stop st = st
   ∧ aborted (stop st) = ∅)
  ∧ (inflight failed = ∅
     ∧ aborted failed = ∅
     ∧ aborted (stop failed) = {[0]}
     ∧ observables (stop failed) = observables failed).
Proof. vm_compute. by repeat split. Qed.

(** C8, amended. [stop()] aborts the controller the session holds, if it
    holds one, and lets go of it; it aborts nothing else. In every state
    it leaves the observables, the suspended exchanges, the requests made
    and the store as they are; it changes nothing at all when no
    controller is held, hence when called a second time in a row; being a
    total function of the state, it has no way to raise. The controller
    held is that of the exchange started last, from its start until an
    exchange starts, [stop()] is called, or any exchange - this one or an
    earlier one still in flight - returns or raises an abort error: up to
    then every request made carries that controller and [stop()] aborts
    it. *)
Theorem stop_aborts_held_controller cfg :
  (∀ st k, k ∈ aborted (stop st)
           ↔ k ∈ aborted st ∨ abortController st = Some k)
  ∧ (∀ st, abortController (stop st) = None
           ∧ observables (stop st) = observables st
           ∧ inflight (stop st) = inflight st
           ∧ requests (stop st) = requests st
           ∧ store (stop st) = store st)
  ∧ (∀ st, abortController st = None → stop st = st)
  ∧ (∀ st, stop (stop st) = stop st)
  ∧ (∀ chatRequest st0 e st1 labels,
       triggerRequest chatRequest st0 = (Pending e, st1) →
       Forall (λ l, keeps_controller l = true) labels →
       let st2 := run cfg st1 labels in
       abortController st2 = Some (controllers st0)
       ∧ controllers st0 ∈ aborted (stop st2)
       ∧ ∃ new,
           requests st2 = requests st0 ++ new
           ∧ Forall
               (λ r, req_abortController r = Some (controllers st0)) new).
Proof.
  split; [|split; [|split; [|split]]].
  - intros st k. unfold stop.
    destruct (abortController st) as [c|]; simpl.
    + rewrite elem_of_union, elem_of_singleton. split.
      * intros [-> |?]; [by right|by left].
      * intros [?|[= ->]]; [by right|by left].
    + split; [by left|]. by intros [?|[=]].
  - intros st. split.
    { unfold stop. by destruct (abortController st) eqn:H. }
    unfold observables.
    by destruct (stop_frame st)
      as (-> & -> & -> & -> & -> & -> & _ & -> & _ & ->).
  - intros st H. unfold stop. by rewrite H.
  - apply stop_stop.
  - intros chatRequest st0 e st1 labels Htr Hls st2. subst st2.
    destruct (triggerRequest_frame _ _ _ _ Htr)
      as (_ & _ & _ & _ & _ & Hr & _ & Hc & _).
    destruct (run_keeps_controller cfg labels st1 Hls)
      as (Hh & _ & new & Hnew & Hall).
    rewrite Hc in Hh, Hall. rewrite Hr in Hnew.
    split; [done|]. split; [by apply stop_aborts|]. by exists new.
Qed.

(** C8 on the sample session: an exchange streaming its answer while the
    input is typed is cancelled by [stop()]. *)
Lemma stop_aborts_held_controller_witness :
  let st2 :=
    run Sample.cfg
      (append Sample.cfg Sample.hi Sample.no_options Sample.st0).2
      (exchange_opens 0 [([Sample.assistant_message "a" "Hel"], None)] ++
       [Api (CallSetInput "more")]) in
  abortController st2 = Some 0
  ∧ 0 ∈ aborted (stop st2)
  ∧ (req_abortController <$> requests st2) = [Some 0].
Proof.
  destruct (stop_aborts_held_controller Sample.cfg) as (_ & _ & _ & _ & H).
  destruct
    (H (mkChatRequest [as_Message "id-0" Sample.hi] None None None None None)
       (set_idCalls 1 Sample.st0) 0
       (append Sample.cfg Sample.hi Sample.no_options Sample.st0).2
       (exchange_opens 0 [([Sample.assistant_message "a" "Hel"], None)] ++
        [Api (CallSetInput "more")])
       eq_refl ltac:(by repeat constructor))
    as (H1 & H2 & _).
  vm_compute in H1, H2 |- *.
  exact (conj H1 (conj H2 eq_refl)).
Defined.

Example stop_sample :
  let st2 :=
    run Sample.cfg Sample.st0
      (Api (CallAppend Sample.hi Sample.no_options) ::
       exchange_opens 0 [([Sample.assistant_message "a" "Hel"], None)]) in
  stop Sample.st0 = Sample.st0
  ∧ elements (aborted st2) = []
  ∧ elements (aborted (stop st2)) = [0]
  ∧ messages (stop st2) = messages st2
  ∧ stop (stop st2) = stop st2.
Proof. by vm_compute. Qed.

(** ** The store *)

(** C3, as stated, on the sample session: after [setMessages] the store
    holds the one message under the session's key, and a session
    constructed again with the same options - hence the same key - starts
    empty all the same. *)
Lemma new_session_ignores_store :
  let m := Sample.user_message "u1" "Hi" in
  let st := run Sample.cfg Sample.st0 [Api (CallSetMessages [m])] in
  let again := useChat Sample.ids Sample.options (store st) (uniqueId st) in
  key again.1 = key Sample.cfg
  ∧ store again.2 !! key again.1 = Some [m]
  ∧ messages again.2 = [].
Proof. by vm_compute. Qed.

Section Store.
Context (cfg : Config).

Lemma triggerRequest_store chatRequest st :
  store_follows cfg st (triggerRequest chatRequest st).2.
Proof. by left. Qed.

Lemma append_store m o st : store_follows cfg st (append cfg m o st).2.
Proof.
  by destruct (append_cases cfg m o st)
    as [[r ->]|(i & s & [-> | ->] & ->)]; left.
Qed.

Lemma with_call_store e f st :
  (∀ c s, store_follows cfg s (f c s)) →
  store_follows cfg st (with_call e f st).
Proof.
  intros Hf. unfold with_call.
  destruct (inflight st !! e ≫= ex_call); [apply Hf | by left].
Qed.

Lemma step_store st l : store_follows cfg st (step cfg st l).
Proof.
  step_cases l e.
  - apply append_store.
  - unfold reload. repeat case_bool_decide; by left.
  - left. by destruct (stop_frame st) as (-> & -> & _).
  - right. apply mutate_store.
  - unfold handleSubmit. case_bool_decide; [by left|].
    pose proof (append_store
      (mkCreateMessage None (Some now) RoleUser (input st) None None None
         None) o st) as Ha.
    by destruct (append cfg _ o st).
  - by left.
  - unfold getStreamedResponse_thunk.
    destruct (inflight st !! e); [|by left].
    right. simpl. apply lookup_insert_eq.
  - unfold updateChatRequest. destruct (inflight st !! e); by left.
  - apply with_call_store. intros c s. right. simpl. apply lookup_insert_eq.
  - apply with_call_store. intros c s. right. apply mutate_store.
  - left. unfold triggerRequest_settled, catch_clause.
    destruct (inflight st !! e); [|done].
    settle_paths cfg c; done.
Qed.

End Store.

(** C3, amended. [useChat] starts the conversation from [initialMessages]
    (empty by default) whatever the store holds, and leaves the store as
    it finds it; from then on every step that changes the conversation or
    the store ends with the conversation recorded in the store under the
    session's key [api|chatId]. *)
Theorem store_written_not_read :
  (∀ generateIdFunc o store0 uniqueId0,
     let s := (useChat generateIdFunc o store0 uniqueId0).2 in
     messages s = default [] (opt_initialMessages o) ∧ store s = store0)
  ∧ (∀ cfg st l,
       let st' := step cfg st l in
       (messages st' = messages st ∧ store st' = store st)
       ∨ store st' !! (api cfg +:+ "|" +:+ chatId cfg) = Some (messages st')).
Proof.
  split.
  - intros generateIdFunc o store0 uniqueId0. unfold useChat.
    by destruct (nonempty_string (opt_id o)).
  - intros cfg st l. apply step_store.
Qed.

(** ** Overlapping exchanges *)

Section Numbering.
Context (cfg : Config).

Lemma numbered_useChat generateIdFunc o store0 uniqueId0 :
  numbered (useChat generateIdFunc o store0 uniqueId0).2.
Proof.
  unfold useChat. destruct (nonempty_string (opt_id o)); simpl;
    (split; simpl; [intros e [x Hx]; by rewrite lookup_empty in Hx
                   | done
                   | intros e ex c k Hx; by rewrite lookup_empty in Hx]).
Qed.

Lemma numbered_triggerRequest chatRequest st :
  numbered st → numbered (triggerRequest chatRequest st).2.
Proof.
  intros [Hf Hh Hr]. split; simpl.
  - intros e. rewrite lookup_insert_is_Some'.
    intros [<-|He]; [lia | apply Hf in He; lia].
  - intros k [= <-]. lia.
  - intros e ex c k. rewrite lookup_insert_Some.
    intros [[_ <-]|[_ He]] Hc Hk; [done|].
    pose proof (Hr _ _ _ _ He Hc Hk). lia.
Qed.

Lemma numbered_frame_only st st' :
  inflight st' = inflight st → exchanges st' = exchanges st →
  controllers st' = controllers st →
  (abortController st' = abortController st ∨ abortController st' = None) →
  numbered st → numbered st'.
Proof.
  intros Hi He Hc Ha [Hf Hh Hr].
  split; rewrite ?Hi, ?He, ?Hc; [done| |done].
  destruct Ha as [-> | ->]; [done|]. by intros k.
Qed.

Lemma numbered_append m o st : numbered st → numbered (append cfg m o st).2.
Proof.
  intros H.
  assert (H' : numbered (set_idCalls (S (idCalls st)) st))
    by (by apply (numbered_frame_only st); [..|left|]).
  destruct (append_cases cfg m o st) as [[r ->]|(i & s & [-> | ->] & ->)];
    [done|by apply numbered_triggerRequest..].
Qed.

Lemma numbered_settled e c st :
  numbered st → numbered (triggerRequest_settled cfg e c st).
Proof.
  intros [Hf Hh Hr]. unfold triggerRequest_settled, catch_clause.
  destruct (inflight st !! e) as [ex0|] eqn:He0; [|done].
  assert (Hdel : ∀ e', is_Some (delete e (inflight st) !! e') →
                       is_Some (inflight st !! e')).
  { intros e' [x Hx]. apply lookup_delete_Some in Hx as [_ Hx]. by eexists. }
  assert (Hdel' : ∀ e' ex c' k,
            delete e (inflight st) !! e' = Some ex → ex_call ex = Some c' →
            call_abortControllerRef c' = Some k → k < controllers st).
  { intros e' ex c' k Hx. apply lookup_delete_Some in Hx as [_ Hx]. eauto. }
  settle_paths cfg c; by split; simpl; auto.
Qed.

Lemma numbered_step st l : numbered st → numbered (step cfg st l).
Proof.
  intros H.
  step_cases l e.
  - by apply numbered_append.
  - unfold reload. repeat case_bool_decide; try done;
      by apply numbered_triggerRequest.
  - apply (numbered_frame_only st); try done;
      unfold stop; destruct (abortController st) eqn:Hheld; simpl; auto.
  - by apply (numbered_frame_only st); [..|left|].
  - unfold handleSubmit. case_bool_decide; [done|].
    pose proof (numbered_append
      (mkCreateMessage None (Some now) RoleUser (input st) None None None
         None) o st H) as Ha.
    destruct (append cfg _ o st) as [p s1]. simpl in Ha.
    by apply (numbered_frame_only s1); [..|left|].
  - by apply (numbered_frame_only st); [..|left|].
  - destruct H as [Hf Hh Hr]. unfold getStreamedResponse_thunk.
    destruct (inflight st !! e) as [ex0|] eqn:He0; [|by split].
    split; simpl.
    + intros e'. rewrite lookup_insert_is_Some'.
      intros [<-|He']; [apply Hf; by eexists | by apply Hf].
    + done.
    + intros e' ex c k. rewrite lookup_insert_Some.
      intros [[_ <-]|[_ He']]; simpl; [intros [= <-]; apply Hh | eauto].
  - destruct H as [Hf Hh Hr]. unfold updateChatRequest.
    destruct (inflight st !! e) as [ex0|] eqn:He0; [|by split].
    split; simpl.
    + intros e'. rewrite lookup_insert_is_Some'.
      intros [<-|He']; [apply Hf; by eexists | by apply Hf].
    + done.
    + intros e' ex c k. rewrite lookup_insert_Some.
      intros [[_ <-]|[_ He']]; simpl; eauto.
  - unfold with_call. destruct (inflight st !! e ≫= ex_call); [|done].
    by apply (numbered_frame_only st); [..|left|].
  - unfold with_call. destruct (inflight st !! e ≫= ex_call); [|done].
    by apply (numbered_frame_only st); [..|left|].
  - by apply numbered_settled.
Qed.

Lemma reachable_numbered init st :
  numbered init → reachable cfg init st → numbered st.
Proof.
  intros Hinit Hreach. induction Hreach; [done|]. by apply numbered_step.
Qed.

End Numbering.

Lemma reachable_run cfg init ls : reachable cfg init (run cfg init ls).
Proof.
  induction ls as [|l ls IH] using rev_ind; [constructor|].
  rewrite run_app. cbn [run foldl]. by constructor.
Qed.




(** ** The restore point of a failed cycle *)

Section Cycle.
Context (cfg : Config).

(** The callbacks of frame [e] stay those of its latest thunk call until
    the thunk is called again or the frame settles. *)
Lemma step_keeps_call e k st l :
  numbered st → keeps_call e l = true →
  inflight st !! e ≫= ex_call = Some k →
  inflight (step cfg st l) !! e ≫= ex_call = Some k.
Proof.
  intros Hn Hl Hc.
  assert (He : e < exchanges st).
  { apply (numbered_frames st Hn).
    destruct (inflight st !! e); [by eexists|done]. }
  assert (Hne : exchanges st ≠ e) by lia.
  step_cases l e'; unfold_step; simpl in Hl;
    repeat case_match; simplify_eq/=;
    rewrite ?lookup_insert_ne by done; try done.
  all: try (case_bool_decide; simplify_eq/=).
  all: try by rewrite ?lookup_insert_ne, ?lookup_delete_ne by done.
  destruct (decide (e' = e)) as [->|];
    [rewrite lookup_insert_eq; by rewrite H in Hc
    |by rewrite lookup_insert_ne].
Qed.

Lemma run_keeps_call e k ls : ∀ st,
  numbered st → Forall (λ l, keeps_call e l = true) ls →
  inflight st !! e ≫= ex_call = Some k →
  inflight (run cfg st ls) !! e ≫= ex_call = Some k
  ∧ numbered (run cfg st ls).
Proof.
  induction ls as [|l ls IH]; intros st Hn Hls Hk; [done|].
  rewrite run_cons. inversion_clear Hls.
  apply IH; [by apply numbered_step|done|by apply step_keeps_call].
Qed.

End Cycle.

(** C1, refuted as stated, on the sample session with a handler that
    returns. An exchange whose first cycle ended with a function call
    makes a second request; when that cycle fails, the conversation goes
    back to what the first cycle left - the message sent and the call,
    additions of the failed exchange - not to the empty conversation the
    exchange began with. An exchange started by [append] that fails in its
    first cycle loses the appended message with the partial answer. And a
    raised value that is not an [Error] is put in the error observable
    without [onError] being called. *)
Lemma failed_followup_keeps_first_cycle :
  let call := Sample.assistant_message "a" "call" in
  let st1 := (append Sample.cfg Sample.hi Sample.no_options Sample.st0).2 in
  let followup :=
    run Sample.cfg st1
      (exchange_opens 0 [([call], None)] ++
       exchange_opens 0 [([Sample.assistant_message "b" "par"], None)] ++
       exchange_closes 0 (Failed Sample.parse_error)) in
  let first :=
    run Sample.cfg st1
      (exchange_opens 0 [([Sample.assistant_message "a" "Hel"], None)] ++
       exchange_closes 0 (Failed Sample.parse_error)) in
  let plain :=
    run Sample.cfg st1
      (exchange_opens 0 [] ++ exchange_closes 0 (Failed Sample.plain_value)) in
  (messages Sample.st0 = []
   ∧ messages followup = [as_Message "id-0" Sample.hi; call]
   ∧ error followup = Some Sample.parse_error)
  ∧ ((length <$> (req_messages <$> last (requests first))) = Some 1
     ∧ messages first = [])
  ∧ (onError Sample.cfg = true
     ∧ error plain = Some Sample.plain_value
     ∧ onErrorCalls plain = []).
Proof. vm_compute. by repeat split. Qed.

(** C1, amended. In every state of a session, take a suspended exchange
    whose thunk is called - its first request or a follow-up - and let
    anything happen afterwards except a further call of that thunk or the
    settling of that exchange. When the cycle then fails with a value
    other than an abort error, the transport restoring before it raises,
    the messages and the store entry of the session are those of the
    moment the thunk was called, and loading is false. [onError] has been
    called with the value if and only if it was supplied and the value is
    an [Error]. If the handler was not called or returned, the error
    observable holds the value and the promise resolves with [undefined];
    if it raised, the error observable is as it was and the promise is
    rejected. For the first cycle of an exchange the restore point is the
    conversation as it was before [append] or [reload] was called. *)
Theorem failed_cycle_restores_thunk_snapshot
    generateIdFunc o store0 uniqueId0 st e ex labels err :
  let cfg := (useChat generateIdFunc o store0 uniqueId0).1 in
  reachable cfg (useChat generateIdFunc o store0 uniqueId0).2 st →
  inflight st !! e = Some ex →
  Forall (λ l, keeps_call e l = true) labels →
  is_AbortError err = false →
  let st2 := run cfg st (Ev e EvGetStreamedResponse :: labels) in
  let st' := run cfg st2 (exchange_closes e (Failed err)) in
  messages st' = messages st
  ∧ store st' !! key cfg = Some (messages st)
  ∧ loading st' = false
  ∧ onErrorCalls st'
    = onErrorCalls st2 ++
      (if onError cfg && instanceofError err then [err] else [])
  ∧ match handler_raises cfg err with
    | None =>
      error st' = Some err ∧ settled st' !! e = Some ResolvedUndefined
    | Some r =>
      error st' = error st2 ∧ settled st' !! e = Some (Rejected r)
    end
  ∧ (∀ chatRequest st0,
       triggerRequest chatRequest st0 = (Pending e, st) →
       messages st' = messages st0).
Proof.
  intros cfg Hr He Hls Hab st2 st'.
  assert (Hn : numbered st)
    by (eapply reachable_numbered; [apply numbered_useChat|done]).
  set (c := mkCall (ex_chatRequest ex) (streamData st) (messages st)
              (abortController st)).
  destruct (run_keeps_call cfg e c labels
              (step cfg st (Ev e EvGetStreamedResponse))) as [Hc _].
  { by apply numbered_step. }
  { done. }
  { cbn [step]. by rewrite (thunk_call cfg e ex st He). }
  fold (run cfg st (Ev e EvGetStreamedResponse :: labels)) in Hc.
  rewrite <- run_cons in Hc. fold st2 in Hc.
  destruct (inflight st2 !! e) as [ex2|] eqn:He2; [|done]. simpl in Hc.
  subst st'. cbn [exchange_closes]. rewrite !run_cons. cbn [run foldl step].
  rewrite (with_call_found e _ st2 _ _ He2 Hc).
  unfold restoreMessagesOnFailure. cbn [call_previousMessages c].
  set (st3 := mutate cfg (messages st) st2).
  assert (He3 : inflight st3 !! e = Some ex2) by done.
  destruct (settled_failed cfg e _ err st3 He3 Hab)
    as (Hs & Hl & _ & Herr & Hoc & Hm & Hst & _).
  assert (Hmsg : messages (triggerRequest_settled cfg e (Threw err) st3)
                 = messages st)
    by (rewrite Hm; apply mutate_messages).
  split; [done|].
  split; [rewrite Hst; apply mutate_store|].
  split; [done|]. split; [done|].
  split.
  - rewrite Hs, Herr. unfold resolution_of. rewrite Hab.
    by destruct (handler_raises cfg err).
  - intros chatRequest st0 Htr. rewrite Hmsg.
    by destruct (triggerRequest_frame _ _ _ _ Htr) as (_ & -> & _).
Qed.

(** C1 on the sample session: the follow-up cycle of an exchange fails
    with a parse error while the input is being typed. *)
Lemma failed_cycle_restores_thunk_snapshot_witness :
  let call := Sample.assistant_message "a" "call" in
  let st :=
    run Sample.cfg Sample.st0
      (Api (CallAppend Sample.hi Sample.no_options) ::
       exchange_opens 0 [([call], None)]) in
  let st' :=
    run Sample.cfg st
      (Ev 0 EvGetStreamedResponse ::
       [Ev 0 (EvUpdate [Sample.assistant_message "b" "par"] None);
        Api (CallSetInput "more")] ++
       exchange_closes 0 (Failed Sample.parse_error)) in
  messages st' = [as_Message "id-0" Sample.hi; call]
  ∧ store st' !! key Sample.cfg = Some [as_Message "id-0" Sample.hi; call]
  ∧ loading st' = false
  ∧ onErrorCalls st' = [Sample.parse_error]
  ∧ error st' = Some Sample.parse_error
  ∧ settled st' !! 0 = Some ResolvedUndefined.
Proof.
  eassert (He : inflight
                 (run Sample.cfg Sample.st0
                    (Api (CallAppend Sample.hi Sample.no_options) ::
                     exchange_opens 0
                       [([Sample.assistant_message "a" "call"], None)]))
               !! 0 = Some _) by (vm_compute; reflexivity).
  pose proof
    (failed_cycle_restores_thunk_snapshot Sample.ids Sample.options ∅ 0 _ 0 _
       [Ev 0 (EvUpdate [Sample.assistant_message "b" "par"] None);
        Api (CallSetInput "more")]
       Sample.parse_error
       (reachable_run Sample.cfg Sample.st0
          (Api (CallAppend Sample.hi Sample.no_options) ::
           exchange_opens 0 [([Sample.assistant_message "a" "call"], None)]))
       He ltac:(by repeat constructor) eq_refl)
    as (H1 & H2 & H3 & H4 & H5 & _).
  vm_compute in H1, H2, H3, H4, H5 |- *.
  destruct H5 as [H5 H6].
  exact (conj H1 (conj H2 (conj H3 (conj H4 (conj H5 H6))))).
Defined.

(** * Further properties of the session *)

(** ** Any request/response cycle *)

(** A cycle opened on a suspended frame, at any point of the session: the
    callbacks close over the frame's current request and over the stream
    data, the messages and the held controller as they are when the thunk
    is called. *)
Lemma cycle_spec cfg st e ex updates :
  inflight st !! e = Some ex →
  let c :=
    mkCall (ex_chatRequest ex) (streamData st) (messages st)
      (abortController st) in
  let st' := run cfg st (exchange_opens e updates) in
  inflight st' !! e = Some (mkExchange (ex_chatRequest ex) (Some c))
  ∧ messages st' =
      cr_messages (ex_chatRequest ex) ++ from_option fst [] (last updates)
  ∧ store st' !! key cfg = Some (messages st')
  ∧ streamData st' =
      from_option
        (λ u, Some (default [] (streamData st) ++ default [] u.2))
        (streamData st) (last updates)
  ∧ error st' = error st ∧ loading st' = loading st
  ∧ abortController st' = abortController st
  ∧ aborted st' = aborted st ∧ onErrorCalls st' = onErrorCalls st.
Proof.
  intros He c st'. subst st'.
  pose proof (thunk_call cfg e ex st He) as Hth. fold c in Hth.
  unfold exchange_opens. rewrite run_cons. cbn [step].
  rewrite (run_deliver cfg e _ c updates _ Hth eq_refl).
  unfold getStreamedResponse_thunk in *. rewrite He in *. simpl in Hth.
  destruct (last updates) as [[merged d]|]; simpl;
    rewrite ?app_nil_r, ?lookup_insert_eq; by repeat split.
Qed.

(** X1. [restoreMessagesOnFailure] brings back the conversation as it was
    when the thunk of that cycle was called - for a follow-up cycle of the
    same [triggerRequest], the conversation the earlier cycles left - and
    records it in the store; the stream data received in the cycle
    stays. *)
Theorem restore_returns_to_thunk_call cfg st e ex updates :
  inflight st !! e = Some ex →
  let st' := run cfg st (exchange_opens e updates ++ [Ev e EvRestore]) in
  messages st' = messages st
  ∧ store st' !! key cfg = Some (messages st)
  ∧ streamData st' =
      from_option
        (λ u, Some (default [] (streamData st) ++ default [] u.2))
        (streamData st) (last updates).
Proof.
  intros He st'. subst st'. rewrite run_app.
  destruct (cycle_spec cfg st e ex updates He)
    as (Hfr & _ & _ & Hd & _).
  set (st2 := run cfg st (exchange_opens e updates)) in *.
  cbn [run foldl step].
  rewrite (with_call_found e _ st2 _ _ Hfr eq_refl).
  unfold restoreMessagesOnFailure. cbn [call_previousMessages].
  rewrite mutate_messages, mutate_store. by rewrite <- Hd.
Qed.

(** X1 after a first cycle has completed: a follow-up cycle that is
    restored returns to the first cycle's result, not to the empty
    conversation the exchange started from. *)
Lemma restore_returns_to_thunk_call_witness :
  let st :=
    run Sample.cfg Sample.st0
      (Api (CallAppend Sample.hi Sample.no_options) ::
       exchange_opens 0 [([Sample.assistant_message "a" "Hello!"], None)]) in
  let st' :=
    run Sample.cfg st
      (exchange_opens 0 [([Sample.assistant_message "b" "..."], Some [])] ++
       [Ev 0 EvRestore]) in
  messages st' = messages st
  ∧ store st' !! key Sample.cfg = Some (messages st)
  ∧ streamData st' = Some ([] ++ []).
Proof.
  eassert (He : inflight
                 (run Sample.cfg Sample.st0
                    (Api (CallAppend Sample.hi Sample.no_options) ::
                     exchange_opens 0
                       [([Sample.assistant_message "a" "Hello!"], None)]))
               !! 0 = Some _) by (vm_compute; reflexivity).
  pose proof (restore_returns_to_thunk_call Sample.cfg _ 0 _
                [([Sample.assistant_message "b" "..."], Some [])] He) as H.
  vm_compute in H |- *. exact H.
Defined.

(** X2. Stream data within a cycle is not accumulated update by update:
    after any number of updates it is the data that existed when the thunk
    was called followed by the data of the latest update alone. Without
    an update it is untouched, and it is never reset to [undefined]. *)
Theorem stream_data_last_update_wins cfg st e ex updates :
  inflight st !! e = Some ex →
  let st' := run cfg st (exchange_opens e updates) in
  (updates = [] → streamData st' = streamData st)
  ∧ (∀ us merged data, updates = us ++ [(merged, data)] →
     streamData st'
     = Some (default [] (streamData st) ++ default [] data))
  ∧ (is_Some (streamData st) → is_Some (streamData st')).
Proof.
  intros He st'. subst st'.
  destruct (cycle_spec cfg st e ex updates He) as (_ & _ & _ & -> & _).
  split; [by intros ->|]. split.
  - intros us merged data ->. by rewrite last_snoc.
  - intros Hs. by destruct (last updates).
Qed.

Lemma stream_data_last_update_wins_witness :
  let st :=
    step Sample.cfg Sample.st0 (Api (CallAppend Sample.hi Sample.no_options)) in
  let updates :=
    [([Sample.assistant_message "a" "Hel"], Some [JString "d1"]);
     ([Sample.assistant_message "a" "Hello!"], Some [JString "d2"])] in
  let st' := run Sample.cfg st (exchange_opens 0 updates) in
  (updates = [] → streamData st' = streamData st)
  ∧ (∀ us merged data, updates = us ++ [(merged, data)] →
     streamData st'
     = Some (default [] (streamData st) ++ default [] data))
  ∧ (is_Some (streamData st) → is_Some (streamData st')).
Proof.
  eassert (He : inflight
                 (step Sample.cfg Sample.st0
                    (Api (CallAppend Sample.hi Sample.no_options)))
               !! 0 = Some _) by (vm_compute; reflexivity).
  exact
    (stream_data_last_update_wins Sample.cfg _ 0 _
       [([Sample.assistant_message "a" "Hel"], Some [JString "d1"]);
        ([Sample.assistant_message "a" "Hello!"], Some [JString "d2"])] He).
Defined.

Example stream_data_sample :
  streamData
    (run Sample.cfg Sample.st0
       (Api (CallAppend Sample.hi Sample.no_options) ::
        exchange_opens 0
          [([Sample.assistant_message "a" "Hel"], Some [JString "d1"]);
           ([Sample.assistant_message "a" "Hello!"], Some [JString "d2"])]))
  = Some [JString "d2"].
Proof. by vm_compute. Qed.

(** ** Interference with an exchange in flight *)

(** X3. [setMessages] during an exchange replaces the conversation and
    its store entry and leaves the exchange alone (frames, held
    controller, loading, error, requests); but the next streamed update
    of that exchange discards the list that was set: the conversation is
    again the exchange's request history followed by the merged
    response. *)
Theorem setMessages_lost_at_next_update cfg st e ex c msgs merged data :
  inflight st !! e = Some ex → ex_call ex = Some c →
  let st1 := step cfg st (Api (CallSetMessages msgs)) in
  let st2 := step cfg st1 (Ev e (EvUpdate merged data)) in
  messages st1 = msgs
  ∧ store st1 !! key cfg = Some msgs
  ∧ inflight st1 = inflight st
  ∧ (abortController st1, loading st1, error st1, requests st1)
    = (abortController st, loading st, error st, requests st)
  ∧ messages st2 = cr_messages (call_chatRequest c) ++ merged
  ∧ store st2 !! key cfg = Some (cr_messages (call_chatRequest c) ++ merged).
Proof.
  intros He Hc st1 st2. subst st2 st1. cbn [step].
  unfold setMessages.
  rewrite (with_call_found e _ (mutate cfg msgs st) ex c He Hc).
  rewrite mutate_messages, mutate_store. simpl.
  rewrite lookup_insert_eq. by repeat split.
Qed.

Lemma setMessages_lost_at_next_update_witness :
  let st :=
    run Sample.cfg Sample.st0
      (Api (CallAppend Sample.hi Sample.no_options) :: exchange_opens 0 []) in
  let a := Sample.assistant_message "a" "Hello!" in
  let st1 := step Sample.cfg st (Api (CallSetMessages [])) in
  let st2 := step Sample.cfg st1 (Ev 0 (EvUpdate [a] None)) in
  messages st1 = []
  ∧ store st1 !! key Sample.cfg = Some []
  ∧ inflight st1 = inflight st
  ∧ (abortController st1, loading st1, error st1, requests st1)
    = (abortController st, loading st, error st, requests st)
  ∧ messages st2 = [as_Message "id-0" Sample.hi] ++ [a]
  ∧ store st2 !! key Sample.cfg = Some ([as_Message "id-0" Sample.hi] ++ [a]).
Proof.
  eassert (He : inflight
                 (run Sample.cfg Sample.st0
                    (Api (CallAppend Sample.hi Sample.no_options) ::
                     exchange_opens 0 []))
               !! 0 = Some _) by (vm_compute; reflexivity).
  pose proof (setMessages_lost_at_next_update Sample.cfg _ 0 _ _ []
                [Sample.assistant_message "a" "Hello!"] None He eq_refl) as H.
  vm_compute in H |- *. exact H.
Defined.

(** X4. [updateChatRequest] changes what the next call of the thunk
    sends, not the cycle that is open: updates that still arrive are
    applied on top of the old request's history, while the next call of
    the thunk sets the conversation to the new request's messages, sends
    their payload, and takes its restore point just before doing so. *)
Theorem updateChatRequest_takes_effect_at_next_call
    cfg st e ex c r merged data :
  inflight st !! e = Some ex → ex_call ex = Some c →
  let st1 := step cfg st (Ev e (EvUpdateChatRequest r)) in
  let st2 := step cfg st1 (Ev e EvGetStreamedResponse) in
  observables st1 = observables st
  ∧ requests st1 = requests st
  ∧ messages (step cfg st1 (Ev e (EvUpdate merged data)))
    = cr_messages (call_chatRequest c) ++ merged
  ∧ messages st2 = cr_messages r
  ∧ (req_messages <$> last (requests st2))
    = Some (constructedMessagesPayload (sendExtraMessageFields cfg)
              (cr_messages r))
  ∧ messages (step cfg st2 (Ev e EvRestore)) = messages st.
Proof.
  intros He Hc st1 st2.
  assert (H1 : inflight st1 !! e = Some (mkExchange r (Some c))).
  { subst st1. cbn [step]. unfold updateChatRequest. rewrite He. simpl.
    rewrite lookup_insert_eq. by rewrite Hc. }
  assert (Hst1 : st1 = set_inflight (<[e := mkExchange r (ex_call ex)]>
                                       (inflight st)) st).
  { subst st1. cbn [step]. unfold updateChatRequest. by rewrite He. }
  split; [by rewrite Hst1|]. split; [by rewrite Hst1|]. split.
  { cbn [step]. by rewrite (with_call_found e _ st1 _ c H1 eq_refl). }
  pose proof (thunk_call cfg e _ st1 H1) as H2. fold st2 in H2.
  assert (Hrun : st2 = run cfg st1 (exchange_opens e [])) by done.
  destruct (cycle_spec cfg st1 e _ [] H1) as (_ & Hm & _).
  rewrite <- Hrun in Hm. simpl in Hm. rewrite app_nil_r in Hm.
  split; [done|]. split.
  { subst st2. cbn [step]. unfold getStreamedResponse_thunk. rewrite H1.
    simpl. by rewrite last_snoc. }
  cbn [step]. rewrite (with_call_found e _ st2 _ _ H2 eq_refl).
  unfold restoreMessagesOnFailure. rewrite mutate_messages. simpl.
  by rewrite Hst1.
Qed.

Lemma updateChatRequest_takes_effect_at_next_call_witness :
  let st :=
    run Sample.cfg Sample.st0
      (Api (CallAppend Sample.hi Sample.no_options) ::
       exchange_opens 0 [([Sample.assistant_message "a" "call"], None)]) in
  let r :=
    mkChatRequest
      [as_Message "id-0" Sample.hi; Sample.assistant_message "a" "call";
       Sample.user_message "f" "result"] None None None None None in
  let st1 := step Sample.cfg st (Ev 0 (EvUpdateChatRequest r)) in
  let st2 := step Sample.cfg st1 (Ev 0 EvGetStreamedResponse) in
  observables st1 = observables st
  ∧ requests st1 = requests st
  ∧ messages (step Sample.cfg st1
                (Ev 0 (EvUpdate [Sample.assistant_message "a" "call!"] None)))
    = [as_Message "id-0" Sample.hi] ++ [Sample.assistant_message "a" "call!"]
  ∧ messages st2 = cr_messages r
  ∧ (req_messages <$> last (requests st2))
    = Some (constructedMessagesPayload None (cr_messages r))
  ∧ messages (step Sample.cfg st2 (Ev 0 EvRestore)) = messages st.
Proof.
  eassert (He : inflight
                 (run Sample.cfg Sample.st0
                    (Api (CallAppend Sample.hi Sample.no_options) ::
                     exchange_opens 0
                       [([Sample.assistant_message "a" "call"], None)]))
               !! 0 = Some _) by (vm_compute; reflexivity).
  pose proof (updateChatRequest_takes_effect_at_next_call Sample.cfg _ 0 _ _
                (mkChatRequest
                   [as_Message "id-0" Sample.hi;
                    Sample.assistant_message "a" "call";
                    Sample.user_message "f" "result"]
                   None None None None None)
                [Sample.assistant_message "a" "call!"] None He eq_refl) as H.
  vm_compute in H |- *. exact H.
Defined.

(** ** What holds in every state of a session *)

Section Invariants.
Context (cfg : Config).

(** Loading is raised only together with a frame, and a frame leaves only
    by lowering it. *)
Lemma step_loading st l :
  loading (step cfg st l) = true →
  (∃ e, is_Some (inflight (step cfg st l) !! e))
  ∨ (loading st = true
     ∧ ∀ e, is_Some (inflight st !! e) →
            is_Some (inflight (step cfg st l) !! e)).
Proof.
  step_cases l e; unfold_step; repeat case_match; simplify_eq/=;
    try discriminate; intros Hl;
    try (right; split; [done|]; intros e0; simpl;
         rewrite ?lookup_insert_is_Some'; by auto);
    left; eexists; simpl; by rewrite lookup_insert_eq.
Qed.

(** Only the failure path of the [catch] clause writes an error, and
    only there is [onError] called. *)
Lemma step_error st l err :
  error (step cfg st l) = Some err →
  error st = Some err ∨ is_AbortError err = false.
Proof.
  step_cases l e; unfold_step; repeat case_match; simplify_eq/=;
    try discriminate; try (by left); intros [= <-]; by right.
Qed.

Lemma step_onErrorCalls st l x :
  x ∈ onErrorCalls (step cfg st l) →
  x ∈ onErrorCalls st
  ∨ (onError cfg = true ∧ instanceofError x = true
     ∧ is_AbortError x = false).
Proof.
  step_cases l e; unfold_step; repeat case_match; simplify_eq/=;
    try (by left);
    rewrite elem_of_app, list_elem_of_singleton; (intros [?| ->]; [by left|]);
    right; by destruct (onError cfg), (instanceofError err).
Qed.

(** A step writes the store under the session's key only. *)
Lemma step_store_other st l k :
  k ≠ key cfg → store (step cfg st l) !! k = store st !! k.
Proof.
  intros Hk.
  step_cases l e; unfold_step; repeat case_match; simplify_eq/=; try done;
    by rewrite ?lookup_insert_ne.
Qed.

(** The held controller after a step is the one held before, or a new
    one; only [stop] aborts, and it aborts the held one and lets go. *)
Lemma step_held st l k :
  abortController (step cfg st l) = Some k →
  aborted (step cfg st l) = aborted st
  ∧ (controllers st ≤ controllers (step cfg st l))%nat
  ∧ (abortController st = Some k
     ∨ (k = controllers st
        ∧ (controllers st < controllers (step cfg st l))%nat)).
Proof.
  step_cases l e; unfold_step; repeat case_match; simplify_eq/=;
    try discriminate; intros Hk; simplify_eq/=;
    (split; [done|]); (split; [lia|]); auto with lia.
Qed.

Lemma step_aborted st l k :
  k ∈ aborted (step cfg st l) →
  (controllers st ≤ controllers (step cfg st l))%nat
  ∧ (k ∈ aborted st ∨ abortController st = Some k).
Proof.
  step_cases l e; unfold_step; repeat case_match; simplify_eq/=;
    intros Hk; (split; [lia|]); try (by left).
  apply elem_of_union in Hk as [->%elem_of_singleton|?]; auto.
Qed.

Lemma reachable_useChat_ind (P : State → Prop) generateIdFunc o store0
    uniqueId0 :
  P (useChat generateIdFunc o store0 uniqueId0).2 →
  (∀ st l, P st → P (step cfg st l)) →
  ∀ st, reachable cfg (useChat generateIdFunc o store0 uniqueId0).2 st → P st.
Proof. intros H0 Hstep st Hr. induction Hr; auto. Qed.

(** The controllers aborted and the one held, against the count of those
    constructed. *)
Lemma controllers_accounted init st :
  aborted init = ∅ → abortController init = None →
  reachable cfg init st →
  (∀ k, k ∈ aborted st → (k < controllers st)%nat)
  ∧ (∀ k, abortController st = Some k →
          (k < controllers st)%nat ∧ k ∉ aborted st).
Proof.
  intros Ha Hh Hr. induction Hr as [|st l Hr [IH1 IH2]].
  - rewrite Ha, Hh. split; [set_solver|done].
  - split.
    + intros k Hk. destruct (step_aborted st l k Hk) as [Hle [Hin|Hheld]].
      * apply IH1 in Hin. lia.
      * apply IH2 in Hheld as [? _]. lia.
    + intros k Hk.
      destruct (step_held st l k Hk) as (Hab & Hle & [Hheld|[-> Hlt]]).
      * apply IH2 in Hheld as [? ?]. rewrite Hab. split; [lia|done].
      * rewrite Hab. split; [done|]. intros Hin%IH1. lia.
Qed.

End Invariants.

(** X5. Whenever loading is true, a [triggerRequest] is suspended: the
    flag is never left raised once every exchange has settled. *)
Theorem loading_implies_exchange_in_flight
    generateIdFunc o store0 uniqueId0 st :
  let cfg := (useChat generateIdFunc o store0 uniqueId0).1 in
  reachable cfg (useChat generateIdFunc o store0 uniqueId0).2 st →
  loading st = true → ∃ e, is_Some (inflight st !! e).
Proof.
  intros cfg Hr. induction Hr as [|st l Hr IH].
  - unfold useChat. by destruct (nonempty_string (opt_id o)).
  - intros Hl. destruct (step_loading cfg st l Hl) as [?|[Hl' Hkeep]]; [done|].
    destruct (IH Hl') as [e He]. exists e. by apply Hkeep.
Qed.

Lemma loading_implies_exchange_in_flight_witness :
  ∃ e, is_Some
         (inflight
            (run Sample.cfg Sample.st0
               [Api (CallAppend Sample.hi Sample.no_options)]) !! e).
Proof.
  exact
    (loading_implies_exchange_in_flight Sample.ids Sample.options ∅ 0
       (run Sample.cfg Sample.st0
          [Api (CallAppend Sample.hi Sample.no_options)])
       (reachable_run Sample.cfg Sample.st0 _)
       ltac:(vm_compute; reflexivity)).
Defined.

(** X6. In every state of a session the error observable never holds an
    abort error, and [onError] has only ever been called - and only when
    the handler was supplied - with [Error] instances that are not abort
    errors. *)
Theorem recorded_errors_are_failures generateIdFunc o store0 uniqueId0 st :
  let cfg := (useChat generateIdFunc o store0 uniqueId0).1 in
  reachable cfg (useChat generateIdFunc o store0 uniqueId0).2 st →
  (∀ err, error st = Some err → is_AbortError err = false)
  ∧ (∀ x, x ∈ onErrorCalls st →
          onError cfg = true ∧ instanceofError x = true
          ∧ is_AbortError x = false).
Proof.
  intros cfg Hr. induction Hr as [|st l Hr [IH1 IH2]].
  - unfold useChat. destruct (nonempty_string (opt_id o)); simpl;
      (split; [done|]); intros x Hx; by apply elem_of_nil in Hx.
  - split.
    + intros err He. destruct (step_error cfg st l err He); auto.
    + intros x Hx. destruct (step_onErrorCalls cfg st l x Hx); auto.
Qed.

Lemma recorded_errors_are_failures_witness :
  let st :=
    run Sample.cfg Sample.st0
      (Api (CallAppend Sample.hi Sample.no_options) ::
       exchange_opens 0 [] ++ exchange_closes 0 (Failed Sample.parse_error)) in
  (∀ err, error st = Some err → is_AbortError err = false)
  ∧ (∀ x, x ∈ onErrorCalls st →
          onError Sample.cfg = true ∧ instanceofError x = true
          ∧ is_AbortError x = false).
Proof.
  exact
    (recorded_errors_are_failures Sample.ids Sample.options ∅ 0 _
       (reachable_run Sample.cfg Sample.st0
          (Api (CallAppend Sample.hi Sample.no_options) ::
           exchange_opens 0 [] ++
           exchange_closes 0 (Failed Sample.parse_error)))).
Defined.

(** X7. A session writes the store under its own key only: whatever it
    does, every other entry of the store stays as it was. *)
Theorem other_store_entries_untouched cfg st ls k :
  k ≠ key cfg → store (run cfg st ls) !! k = store st !! k.
Proof.
  intros Hk. revert st. induction ls as [|l ls IH]; intros st; [done|].
  rewrite run_cons, IH. by apply step_store_other.
Qed.

Lemma other_store_entries_untouched_witness :
  store
    (run Sample.cfg
       (set_store {[ "/api/chat|lobby" := [Sample.user_message "u" "x"] ]}
          Sample.st0)
       (Api (CallAppend Sample.hi Sample.no_options) ::
        exchange_opens 0 [([Sample.assistant_message "a" "Hello!"], None)]))
    !! "/api/chat|lobby"
  = store
      (set_store {[ "/api/chat|lobby" := [Sample.user_message "u" "x"] ]}
         Sample.st0)
    !! "/api/chat|lobby".
Proof.
  assert (Hk : "/api/chat|lobby" ≠ key Sample.cfg)
    by (vm_compute; discriminate).
  exact (other_store_entries_untouched Sample.cfg _ _ _ Hk).
Defined.

(** X8. The controller a session holds is always one it constructed and
    has not aborted, so that [stop()] never aborts a controller twice;
    and every aborted controller is one it constructed. *)
Theorem held_controller_is_live generateIdFunc o store0 uniqueId0 st k :
  let cfg := (useChat generateIdFunc o store0 uniqueId0).1 in
  reachable cfg (useChat generateIdFunc o store0 uniqueId0).2 st →
  abortController st = Some k →
  (k < controllers st)%nat
  ∧ (k ∉ aborted st)
  ∧ ∀ k', k' ∈ aborted st → (k' < controllers st)%nat.
Proof.
  intros cfg Hr Hk.
  assert (Ha : aborted (useChat generateIdFunc o store0 uniqueId0).2 = ∅
               ∧ abortController
                   (useChat generateIdFunc o store0 uniqueId0).2 = None)
    by (unfold useChat; by destruct (nonempty_string (opt_id o))).
  destruct Ha as [Ha Hh].
  destruct (controllers_accounted cfg _ st Ha Hh Hr) as [H1 H2].
  destruct (H2 k Hk). auto.
Qed.

Lemma held_controller_is_live_witness :
  let st :=
    run Sample.cfg Sample.st0
      [Api (CallAppend Sample.hi Sample.no_options); Api CallStop;
       Api (CallAppend Sample.hi Sample.no_options)] in
  (1 < controllers st)%nat
  ∧ (1 ∉ aborted st)
  ∧ ∀ k', k' ∈ aborted st → (k' < controllers st)%nat.
Proof.
  exact
    (held_controller_is_live Sample.ids Sample.options ∅ 0 _ 1
       (reachable_run Sample.cfg Sample.st0
          [Api (CallAppend Sample.hi Sample.no_options); Api CallStop;
           Api (CallAppend Sample.hi Sample.no_options)])
       ltac:(vm_compute; reflexivity)).
Defined.

(** ** Overlap and what an exchange leaves behind *)

(** X9. When two exchanges overlap, the one that settles first lowers
    loading and - unless it failed - lets go of the held controller,
    though the other is still in flight: from then on the session shows
    no loading, and [stop()] does nothing for the exchange that is left. *)
Theorem first_to_settle_hides_the_other cfg st e e' ex ex' c :
  e ≠ e' → inflight st !! e = Some ex → inflight st !! e' = Some ex' →
  let st' := step cfg st (Ev e (EvSettle c)) in
  loading st' = false
  ∧ inflight st' !! e' = Some ex'
  ∧ (resolution_of cfg c = ResolvedNull →
     abortController st' = None ∧ stop st' = st').
Proof.
  intros Hne He He' st'. subst st'. cbn [step].
  assert (Hkeep : delete e (inflight st) !! e' = Some ex')
    by (by rewrite lookup_delete_ne).
  unfold triggerRequest_settled, catch_clause. rewrite He.
  destruct c as [|err|]; simpl.
  - split; [done|]. split; [done|]. by intros _.
  - destruct (is_AbortError err); simpl.
    + split; [done|]. split; [done|]. by intros _.
    + unfold handler_raises.
      destruct (onError cfg && instanceofError err);
        [destruct (onError_raises cfg err)|]; done.
  - done.
Qed.

Lemma first_to_settle_hides_the_other_witness :
  let st :=
    run Sample.cfg Sample.st0
      (Api (CallAppend Sample.hi Sample.no_options) :: exchange_opens 0 [] ++
       Api (CallAppend Sample.hi Sample.no_options) :: exchange_opens 1 []) in
  let st' := step Sample.cfg st (Ev 0 (EvSettle Returned)) in
  loading st' = false
  ∧ is_Some (inflight st' !! 1)
  ∧ abortController st' = None ∧ stop st' = st'.
Proof.
  eassert (H0 : inflight
                 (run Sample.cfg Sample.st0
                    (Api (CallAppend Sample.hi Sample.no_options) ::
                     exchange_opens 0 [] ++
                     Api (CallAppend Sample.hi Sample.no_options) ::
                     exchange_opens 1 []))
               !! 0 = Some _) by (vm_compute; reflexivity).
  eassert (H1 : inflight
                 (run Sample.cfg Sample.st0
                    (Api (CallAppend Sample.hi Sample.no_options) ::
                     exchange_opens 0 [] ++
                     Api (CallAppend Sample.hi Sample.no_options) ::
                     exchange_opens 1 []))
               !! 1 = Some _) by (vm_compute; reflexivity).
  assert (Hne : 0 ≠ 1) by discriminate.
  destruct (first_to_settle_hides_the_other Sample.cfg _ 0 1 _ _ Returned
              Hne H0 H1) as (Hl & Hin & Hstop).
  exact (conj Hl (conj (ex_intro _ _ Hin) (Hstop eq_refl))).
Defined.



(** X11. Regenerating an answer resubmits the request that produced it:
    when an exchange has returned with a single assistant message as its
    answer, the conversation is the request's history followed by that
    answer, and [reload] hands [triggerRequest] exactly the history of
    the original request. *)
Theorem reload_after_answer_resubmits_request
    cfg chatRequest st0 e st1 us answer data o :
  triggerRequest chatRequest st0 = (Pending e, st1) →
  msg_role answer = RoleAssistant →
  let st2 :=
    run cfg st1
      (exchange_opens e (us ++ [([answer], data)]) ++
       [Ev e (EvSettle Returned)]) in
  messages st2 = cr_messages chatRequest ++ [answer]
  ∧ ∃ e' st3,
      reload o st2 = (Pending e', st3)
      ∧ (cr_messages <$> (ex_chatRequest <$> inflight st3 !! e'))
        = Some (cr_messages chatRequest).
Proof.
  intros Htr Hrole st2. subst st2. rewrite run_app.
  fold (opened cfg e (us ++ [([answer], data)]) st1).
  destruct (opened_spec cfg _ _ _ _ (us ++ [([answer], data)]) Htr)
    as (Hfr & Hm & _).
  set (st2 := opened cfg e (us ++ [([answer], data)]) st1) in *.
  rewrite last_snoc in Hm. simpl in Hm.
  cbn [run foldl step].
  destruct (settled_returned cfg e _ st2 Hfr)
    as (_ & _ & _ & _ & _ & Hm' & _).
  rewrite <- Hm' in Hm. split; [done|].
  rewrite (reload_snoc o _ _ _ Hm).
  destruct (triggerRequest_pending (reload_request o (cr_messages chatRequest)
                                      answer)
              (triggerRequest_settled cfg e Returned st2))
    as (e' & st3 & Htr' & _).
  exists e', st3. split; [done|].
  destruct (triggerRequest_frame _ _ _ _ Htr') as (-> & _).
  simpl. by rewrite decide_True.
Qed.

Lemma reload_after_answer_resubmits_request_witness :
  let answer := Sample.assistant_message "a" "Hello!" in
  let st2 :=
    run Sample.cfg
      (append Sample.cfg Sample.hi Sample.no_options Sample.st0).2
      (exchange_opens 0 ([] ++ [([answer], None)]) ++
       [Ev 0 (EvSettle Returned)]) in
  messages st2 = [as_Message "id-0" Sample.hi] ++ [answer]
  ∧ ∃ e' st3,
      reload Sample.no_options st2 = (Pending e', st3)
      ∧ (cr_messages <$> (ex_chatRequest <$> inflight st3 !! e'))
        = Some [as_Message "id-0" Sample.hi].
Proof.
  exact
    (reload_after_answer_resubmits_request Sample.cfg
       (mkChatRequest [as_Message "id-0" Sample.hi] None None None None None)
       (set_idCalls 1 Sample.st0) 0
       (append Sample.cfg Sample.hi Sample.no_options Sample.st0).2 []
       (Sample.assistant_message "a" "Hello!") None Sample.no_options
       ltac:(vm_compute; reflexivity) eq_refl).
Defined.

(** ** More on the payload *)

(** X12. When messages are sent as they are, the payload determines the
    conversation: two histories with the same payload are the same
    history. *)
Theorem full_payload_determines_messages s l1 l2 :
  truthy s = true →
  constructedMessagesPayload s l1 = constructedMessagesPayload s l2 →
  l1 = l2.
Proof.
  unfold constructedMessagesPayload. intros ->. revert l2.
  induction l1 as [|m1 l1 IH]; intros [|m2 l2]; simpl; try done.
  intros [= Hm Hl]. f_equal; [by apply message_object_inj | by apply IH].
Qed.

Lemma full_payload_determines_messages_witness :
  [Sample.user_message "u1" "Hi"] = [Sample.user_message "u1" "Hi"].
Proof.
  exact
    (full_payload_determines_messages (Some true)
       [Sample.user_message "u1" "Hi"] [Sample.user_message "u1" "Hi"]
       eq_refl eq_refl).
Defined.

(** X13. The projection keeps exactly the six wire fields: two messages
    project to the same object if and only if they agree on [role],
    [content], [name], [function_call], [tool_calls] and [tool_call_id];
    [id] and [createdAt] play no part. *)
Theorem projection_keeps_exactly_wire_fields m1 m2 :
  project_message m1 = project_message m2
  ↔ msg_role m1 = msg_role m2 ∧ msg_content m1 = msg_content m2
    ∧ msg_name m1 = msg_name m2
    ∧ msg_function_call m1 = msg_function_call m2
    ∧ msg_tool_calls m1 = msg_tool_calls m2
    ∧ msg_tool_call_id m1 = msg_tool_call_id m2.
Proof.
  split.
  - intros Heq.
    destruct (project_message_fields m1)
      as (Hr1 & Hc1 & Hn1 & Hf1 & Ht1 & Hi1 & _).
    destruct (project_message_fields m2)
      as (Hr2 & Hc2 & Hn2 & Hf2 & Ht2 & Hi2 & _).
    rewrite Heq in Hr1, Hc1, Hn1, Hf1, Ht1, Hi1.
    rewrite Hr2 in Hr1. rewrite Hc2 in Hc1. rewrite Hn2 in Hn1.
    rewrite Hf2 in Hf1. rewrite Ht2 in Ht1. rewrite Hi2 in Hi1.
    injection Hr1 as Hr1. apply role_string_inj in Hr1.
    injection Hc1 as Hc1. injection Hi1 as Hi1.
    repeat split; try done.
    + by destruct (msg_name m1), (msg_name m2); simplify_eq/=.
    + by destruct (msg_tool_call_id m1), (msg_tool_call_id m2);
        simplify_eq/=.
  - destruct m1, m2; simpl. intros (-> & -> & -> & -> & -> & ->). done.
Qed.

(** ** The body and the headers of a request *)

(** X14. Precedence in the request body and headers. A property of the
    request's [options.body] hides the session's [body] property of the
    same name, and [functions], [function_call], [tools] and
    [tool_choice], when given with the request, hide both; any other
    property is that of [options.body] if it has it, else that of the
    session's [body]. Headers of the request's options likewise hide the
    session's. *)
Theorem request_body_precedence cfg r :
  let given (k : string) : option JSValue :=
    if decide (k = "functions") then cr_functions r
    else if decide (k = "function_call") then cr_function_call r
    else if decide (k = "tools") then cr_tools r
    else if decide (k = "tool_choice") then cr_tool_choice r
    else None in
  let from_options (k : string) : option JSValue :=
    (cr_options r ≫= ro_body) ≫= (.!! k) in
  let from_session (k : string) : option JSValue := body cfg ≫= (.!! k) in
  (∀ k, request_body cfg r !! k
        = match given k with
          | Some v => Some v
          | None =>
            match from_options k with
            | Some v => Some v
            | None => from_session k
            end
          end)
  ∧ (∀ k, request_headers cfg r !! k
          = match (cr_options r ≫= ro_headers) ≫= (.!! k) with
            | Some v => Some v
            | None => headers cfg ≫= (.!! k)
            end).
Proof.
  intros given from_options from_session. split.
  - intros k. subst given from_options from_session.
    unfold request_body, spread_defined, spread2.
    assert (Hbase : (default ∅ (cr_options r ≫= ro_body)
                     ∪ default ∅ (body cfg)) !! k
                    = match (cr_options r ≫= ro_body) ≫= (.!! k) with
                      | Some v => Some v
                      | None => body cfg ≫= (.!! k)
                      end).
    { rewrite lookup_union.
      destruct (cr_options r ≫= ro_body) as [b|], (body cfg) as [b'|];
        simpl; rewrite ?lookup_empty;
        repeat match goal with
               | |- context [?m !! k] => destruct (m !! k)
               end; done. }
    repeat case_decide; subst;
      destruct (cr_tool_choice r), (cr_tools r), (cr_function_call r),
        (cr_functions r);
      rewrite ?lookup_insert_eq; try done;
      rewrite ?lookup_insert_ne by done; rewrite ?lookup_insert_eq;
      try done; rewrite ?lookup_insert_ne by done; done.
  - intros k. unfold request_headers, spread2. rewrite lookup_union.
    destruct (cr_options r ≫= ro_headers) as [h|], (headers cfg) as [h'|];
      simpl; rewrite ?lookup_empty;
      repeat match goal with
             | |- context [?m !! k] => destruct (m !! k)
             end; done.
Qed.

(** ** Sessions and their keys *)



(** ** [append] and [handleSubmit] *)

(** X16. [append] gives the message the id it came with, or one drawn
    from [generateId] when that is absent or empty, and suspends an
    exchange whose request is the current conversation followed by that
    message; the conversation itself grows only when the thunk is called,
    and the store entry with it. When the call of [generateId] raises,
    [append] is rejected with what it raised and nothing but the count of
    ids drawn has changed. *)
Theorem append_extends_history cfg m o st :
  let i :=
    default (generateId cfg (idCalls st)) (nonempty_string (cm_id m)) in
  let history := messages st ++ [as_Message i m] in
  match nonempty_string (cm_id m), generateId_raises cfg (idCalls st) with
  | None, Some r =>
    append cfg m o st
    = (Resolved (Rejected r), set_idCalls (S (idCalls st)) st)
  | _, _ =>
    ∃ e st1,
      append cfg m o st = (Pending e, st1)
      ∧ (ex_chatRequest <$> inflight st1 !! e)
        = Some (mkChatRequest history (cro_options o) (cro_functions o)
                  (cro_function_call o) (cro_tools o) (cro_tool_choice o))
      ∧ messages st1 = messages st
      ∧ idCalls st1
        = match nonempty_string (cm_id m) with
          | Some _ => idCalls st
          | None => S (idCalls st)
          end
      ∧ messages (step cfg st1 (Ev e EvGetStreamedResponse)) = history
      ∧ store (step cfg st1 (Ev e EvGetStreamedResponse)) !! key cfg
        = Some history
  end.
Proof.
  intros i history. subst history i. unfold append, assign_id.
  destruct (nonempty_string (cm_id m)) as [i|];
    [destruct (generateId_raises cfg (idCalls st))
    |destruct (generateId_raises cfg (idCalls st)); [done|]];
    simpl;
    eexists _, _; (split; [reflexivity|]); simpl;
    rewrite lookup_insert_eq; simpl;
    (split; [done|]); (split; [done|]); (split; [done|]);
    unfold getStreamedResponse_thunk; simpl; rewrite lookup_insert_eq; simpl;
    rewrite lookup_insert_eq; done.
Qed.

(** X17. [handleSubmit] does nothing while the input is empty. Otherwise
    it appends a user message holding the input text, the given date and a
    freshly drawn id, which suspends an exchange on the conversation
    followed by that message, and then empties the input; when the call of
    [generateId] raises, no exchange is started and the input is emptied
    all the same. *)
Theorem handleSubmit_submits_input cfg now o st :
  let st1 := handleSubmit cfg now o st in
  let submitted :=
    mkMessage (generateId cfg (idCalls st)) (Some now) RoleUser (input st)
      None None None None in
  (input st = "" → st1 = st)
  ∧ (input st ≠ "" →
     match generateId_raises cfg (idCalls st) with
     | None =>
       input st1 = ""
       ∧ messages st1 = messages st
       ∧ (loading st1, error st1) = (true, None)
       ∧ idCalls st1 = S (idCalls st)
       ∧ (cr_messages <$>
            (ex_chatRequest <$> inflight st1 !! exchanges st))
         = Some (messages st ++ [submitted])
     | Some _ =>
       input st1 = ""
       ∧ messages st1 = messages st
       ∧ (loading st1, error st1) = (loading st, error st)
       ∧ idCalls st1 = S (idCalls st)
       ∧ inflight st1 = inflight st
     end).
Proof.
  intros st1 submitted. subst st1 submitted. unfold handleSubmit. split.
  - intros ->. by rewrite bool_decide_eq_true_2.
  - intros Hne. rewrite bool_decide_eq_false_2 by done.
    unfold append, assign_id. simpl.
    destruct (generateId_raises cfg (idCalls st)); simpl; [done|].
    rewrite lookup_insert_eq. done.
Qed.
